(** * The init-file SQL splitter of caddy-duckdb-module

    Shallow embedding of [parseSQL] and [truncateStatement]
    (database/init.go), together with the part of Go's [unicode/utf8],
    [unicode] and [strings] packages these two functions call.

    A Go [string] is a sequence of bytes; a [rune] is an [int32] code point.
    [parseSQL] converts its argument with [[]rune(content)], scans the runes
    and writes them back into a [strings.Builder] with [WriteRune];
    [truncateStatement] measures and slices the string in bytes. *)

From Stdlib Require Import Strings.String Strings.Byte.
From Stdlib Require Import ZArith List Bool Lia.
From Stdlib Require Numbers.DecimalString.
Import ListNotations.
Open Scope Z_scope.

(** ** Bytes, strings and runes *)

Abbreviation gostring := (list byte).
Abbreviation rune := Z (only parsing).

Definition b2z (b : byte) : Z := Z.of_N (Byte.to_N b).

Definition z2b (z : Z) : byte :=
  match Byte.of_N (Z.to_N z) with
  | Some b => b
  | None => x00
  end.

(** A string literal of the Go source, as its bytes. *)
Definition str (s : string) : gostring := list_byte_of_string s.

(** [len(s)], a Go [int]. *)
Definition len (s : gostring) : Z := Z.of_nat (length s).

(** ** unicode/utf8 *)

Module utf8.

Definition RuneError : rune := 0xFFFD.
Definition MaxRune : rune := 0x10FFFF.
Definition RuneSelf : Z := 0x80.

(** The table [first] of the decoder, read together with [acceptRanges]:
    for a leading byte, the length of the sequence and the range the second
    byte must lie in.  [None] stands for the entry [xx] (invalid leading
    byte); ASCII bytes are handled before the table is consulted. *)
Definition first (s0 : Z) : option (nat * Z * Z) :=
  if s0 <? 0xC2 then None
  else if s0 <=? 0xDF then Some (2%nat, 0x80, 0xBF)
  else if s0 =? 0xE0 then Some (3%nat, 0xA0, 0xBF)
  else if s0 =? 0xED then Some (3%nat, 0x80, 0x9F)
  else if s0 <=? 0xEF then Some (3%nat, 0x80, 0xBF)
  else if s0 =? 0xF0 then Some (4%nat, 0x90, 0xBF)
  else if s0 <=? 0xF3 then Some (4%nat, 0x80, 0xBF)
  else if s0 =? 0xF4 then Some (4%nat, 0x80, 0x8F)
  else None.

Definition locb : Z := 0x80.
Definition hicb : Z := 0xBF.

Definition at_ (s : gostring) (i : nat) : Z := b2z (nth i s x00).

(** [utf8.DecodeRuneInString]: the first rune of [s] and its width in bytes;
    [(RuneError, 0)] on the empty string, [(RuneError, 1)] on an invalid
    encoding.  The masks [s0&mask2], [s1&maskx] are written [mod 32],
    [mod 64]; shifts as multiplications; the bit fields are disjoint, so
    [|] is [+]. *)
Definition DecodeRuneInString (s : gostring) : rune * nat :=
  match s with
  | [] => (RuneError, 0%nat)
  | _ :: _ =>
    let s0 := at_ s 0 in
    if s0 <? RuneSelf then (s0, 1%nat)
    else
      match first s0 with
      | None => (RuneError, 1%nat)
      | Some (sz, lo, hi) =>
        if (length s <? sz)%nat then (RuneError, 1%nat)
        else
          let s1 := at_ s 1 in
          if (s1 <? lo) || (hi <? s1) then (RuneError, 1%nat)
          else if (sz <=? 2)%nat then ((s0 mod 32) * 64 + s1 mod 64, 2%nat)
          else
            let s2 := at_ s 2 in
            if (s2 <? locb) || (hicb <? s2) then (RuneError, 1%nat)
            else if (sz <=? 3)%nat then
              ((s0 mod 16) * 4096 + (s1 mod 64) * 64 + s2 mod 64, 3%nat)
            else
              let s3 := at_ s 3 in
              if (s3 <? locb) || (hicb <? s3) then (RuneError, 1%nat)
              else ((s0 mod 8) * 262144 + (s1 mod 64) * 4096
                    + (s2 mod 64) * 64 + s3 mod 64, 4%nat)
      end
  end.

(** [utf8.ValidRune]. *)
Definition ValidRune (r : rune) : bool :=
  ((0 <=? r) && (r <? 0xD800)) || ((0xDFFF <? r) && (r <=? MaxRune)).

(** [utf8.AppendRune] on an empty buffer: the UTF-8 encoding of [r]; a rune
    that is out of range or a surrogate is written as [RuneError]. *)
Definition EncodeRune (r : rune) : gostring :=
  if (0 <=? r) && (r <=? 0x7F) then [z2b r]
  else if (0 <=? r) && (r <=? 0x7FF) then
    [z2b (0xC0 + r / 64); z2b (0x80 + r mod 64)]
  else if negb (ValidRune r) then [xef; xbf; xbd]
  else if r <=? 0xFFFF then
    [z2b (0xE0 + r / 4096); z2b (0x80 + (r / 64) mod 64); z2b (0x80 + r mod 64)]
  else
    [z2b (0xF0 + r / 262144); z2b (0x80 + (r / 4096) mod 64);
     z2b (0x80 + (r / 64) mod 64); z2b (0x80 + r mod 64)].

End utf8.

(** What [EncodeRune] writes for [r]: [r] itself when it is valid. *)
Definition fix_rune (r : rune) : rune :=
  if utf8.ValidRune r then r else utf8.RuneError.

(** ** Iterating over a string

    [for _, r := range s], [[]rune(s)] and the scanning loops of [strings]
    all walk [s] rune by rune with [DecodeRuneInString], advancing by the
    width (1 on an invalid byte).  [decode] returns each rune with the bytes
    it was read from.  The fuel is the number of bytes left, which every
    step decreases. *)

Abbreviation chunk := (Z * list byte)%type.

Fixpoint decode_fuel (fuel : nat) (s : gostring) : list chunk :=
  match fuel, s with
  | S f, _ :: _ =>
    let '(r, w) := utf8.DecodeRuneInString s in
    (r, firstn w s) :: decode_fuel f (skipn w s)
  | _, _ => []
  end.

Definition decode (s : gostring) : list chunk := decode_fuel (length s) s.

(** [[]rune(s)]. *)
Definition runes_of (s : gostring) : list rune := map fst (decode s).

(** [string(rs)] for [rs []rune]. *)
Definition string_of_runes (rs : list rune) : gostring :=
  flat_map utf8.EncodeRune rs.

(** [utf8.ValidString]: no byte of [s] decodes as an encoding error. *)
Definition ValidString (s : gostring) : bool :=
  forallb (fun c : chunk =>
             negb ((fst c =? utf8.RuneError) && (length (snd c) =? 1)%nat))
          (decode s).

(** ** unicode *)

(** [unicode.IsSpace]: the Latin-1 cases of the function and the ranges of
    the table [White_Space]. *)
Definition IsSpace (r : rune) : bool :=
  ((0x09 <=? r) && (r <=? 0x0D)) || (r =? 0x20) || (r =? 0x85) || (r =? 0xA0)
  || (r =? 0x1680) || ((0x2000 <=? r) && (r <=? 0x200A))
  || (r =? 0x2028) || (r =? 0x2029) || (r =? 0x202F) || (r =? 0x205F)
  || (r =? 0x3000).

(** ** strings *)

Module strings.

(** The bytes a run of decoded runes was read from. *)
Definition bytes_of (cs : list chunk) : gostring := flat_map snd cs.

Fixpoint trim_left (cs : list chunk) : list chunk :=
  match cs with
  | c :: t => if IsSpace (fst c) then trim_left t else cs
  | [] => []
  end.

Definition trim_right (cs : list chunk) : list chunk :=
  rev (trim_left (rev cs)).

(** [strings.TrimSpace]: [s] without its leading and trailing white space,
    as defined by Unicode ([TrimFunc(s, unicode.IsSpace)]: the left end is
    trimmed, then the right end).  The characters are those [decode] reads
    from the left; Go reads the right end backwards, which finds the same
    characters in a well-formed string, and [TrimSpace] is applied to
    nothing else here (see [encoded_valid]). *)
Definition TrimSpace (s : gostring) : gostring :=
  bytes_of (trim_right (trim_left (decode s))).

(** The loop of [strings.FieldsFunc(s, unicode.IsSpace)]: [cur] is the field
    being read ([start >= 0]), [None] between fields. *)
Fixpoint fields_loop (cs : list chunk) (cur : option gostring)
  : list gostring :=
  match cs with
  | [] => match cur with Some f => [f] | None => [] end
  | c :: t =>
    if IsSpace (fst c) then
      match cur with
      | Some f => f :: fields_loop t None
      | None => fields_loop t None
      end
    else
      fields_loop t (Some (match cur with
                           | Some f => f ++ snd c
                           | None => snd c
                           end))
  end.

(** [strings.Fields]: the maximal runs of non-space characters of [s]. *)
Definition Fields (s : gostring) : list gostring :=
  fields_loop (decode s) None.

(** [strings.Join]. *)
Fixpoint Join (elems : list gostring) (sep : gostring) : gostring :=
  match elems with
  | [] => []
  | [a] => a
  | a :: t => a ++ sep ++ Join t sep
  end.

(** [WriteRune] of [strings.Builder], on the buffer [b]. *)
Definition WriteRune (b : gostring) (r : rune) : gostring :=
  b ++ utf8.EncodeRune r.

End strings.

(** ** Go's [int] (64 bits) and string slicing *)

Definition int_min : Z := - 2 ^ 63.
Definition int_max : Z := 2 ^ 63 - 1.

Definition wrap_int (z : Z) : Z := (z + 2 ^ 63) mod 2 ^ 64 - 2 ^ 63.

Definition int_sub (a b : Z) : Z := wrap_int (a - b).

(** [s[:hi]]: [None] is the run-time panic "slice bounds out of range". *)
Definition slice_to (s : gostring) (hi : Z) : option gostring :=
  if (0 <=? hi) && (hi <=? len s) then Some (firstn (Z.to_nat hi) s)
  else None.

(** ** database/init.go *)

(** The [error] interface; [parseSQL] only ever returns [nil]. *)
Inductive error := errorString (msg : gostring).

(** The locals of [parseSQL]. *)
Record scanner := mkScanner {
  statements : list gostring;
  currentStmt : gostring;
  inString : bool;
  inBlockComment : bool;
  inLineComment : bool
}.

Definition newline : rune := 10.   (* '\n' *)
Definition quote : rune := 39.     (* '\'' *)
Definition star : rune := 42.      (* '*' *)
Definition dash : rune := 45.      (* '-' *)
Definition slash : rune := 47.     (* '/' *)
Definition semicolon : rune := 59. (* ';' *)

(** [i+1 < n && runes[i+1] == x], where [rest] is [runes[i+1:]]. *)
Definition peek (rest : list rune) (x : rune) : bool :=
  match rest with
  | c1 :: _ => c1 =? x
  | [] => false
  end.

(** [i++] inside the loop body: the next rune is skipped. *)
Definition skip (rest : list rune) : list rune :=
  match rest with
  | _ :: r => r
  | [] => rest
  end.

Definition write (st : scanner) (r : rune) : scanner :=
  mkScanner (statements st) (strings.WriteRune (currentStmt st) r)
            (inString st) (inBlockComment st) (inLineComment st).

Definition set_inString (st : scanner) (b : bool) : scanner :=
  mkScanner (statements st) (currentStmt st) b
            (inBlockComment st) (inLineComment st).

Definition set_inBlockComment (st : scanner) (b : bool) : scanner :=
  mkScanner (statements st) (currentStmt st) (inString st) b
            (inLineComment st).

Definition set_inLineComment (st : scanner) (b : bool) : scanner :=
  mkScanner (statements st) (currentStmt st) (inString st)
            (inBlockComment st) b.

(** [stmt := strings.TrimSpace(currentStmt.String());
     if stmt != "" { statements = append(statements, stmt) }]. *)
Definition flush (st : scanner) : list gostring :=
  match strings.TrimSpace (currentStmt st) with
  | [] => statements st
  | stmt => statements st ++ [stmt]
  end.

(** The terminator case: the statement is appended and the builder reset. *)
Definition terminate (st : scanner) : scanner :=
  mkScanner (flush st) [] (inString st) (inBlockComment st)
            (inLineComment st).

(** The body of [for i := 0; i < n; i++], on [runes[i:]]. *)
Fixpoint loop (runes : list rune) (st : scanner) {struct runes} : scanner :=
  match runes with
  | [] => st
  | c :: rest =>
    if inLineComment st then
      if c =? newline then
        loop rest (write (set_inLineComment st false) newline)
      else loop rest st
    else if inBlockComment st then
      if (c =? star) && peek rest slash then
        loop (skip rest) (set_inBlockComment st false)
      else loop rest st
    else if inString st then
      let st := write st c in
      if c =? quote then
        if peek rest quote then loop (skip rest) (write st (hd 0 rest))
        else loop rest (set_inString st false)
      else loop rest st
    else if c =? quote then loop rest (write (set_inString st true) c)
    else if (c =? dash) && peek rest dash then
      loop (skip rest) (set_inLineComment st true)
    else if (c =? slash) && peek rest star then
      loop (skip rest) (set_inBlockComment st true)
    else if c =? semicolon then loop rest (terminate st)
    else loop rest (write st c)
  end.

Definition init : scanner := mkScanner [] [] false false false.

Definition parseSQL (content : gostring) : list gostring * option error :=
  let st := loop (runes_of content) init in
  (flush st, None).

(** [truncateStatement]; [None] is a run-time panic. *)
Definition truncateStatement (stmt : gostring) (maxLen : Z)
  : option gostring :=
  let stmt := strings.Join (strings.Fields stmt) (str " ") in
  if len stmt <=? maxLen then Some stmt
  else
    match slice_to stmt (int_sub maxLen 3) with
    | Some head => Some (head ++ str "...")
    | None => None
    end.

(** ** Notions used in the statements *)

(** The rune [r] as [decode] reads it back from [string([]rune{r})]. *)
Definition chunk_of (r : rune) : chunk := (fix_rune r, utf8.EncodeRune r).

(** First and last character of a string, when there is one. *)
Definition first_rune (s : gostring) : option rune := hd_error (runes_of s).
Definition last_rune (s : gostring) : option rune :=
  hd_error (rev (runes_of s)).

Definition is_space_opt (o : option rune) : bool :=
  match o with
  | Some r => IsSpace r
  | None => false
  end.

(** A statement as [parseSQL] promises it: not empty, no white space at
    either end. *)
Definition trimmed (s : gostring) : Prop :=
  s <> [] /\ strings.TrimSpace s = s
  /\ is_space_opt (first_rune s) = false
  /\ is_space_opt (last_rune s) = false.

(** The scanner is in normal mode. *)
Definition normal (st : scanner) : bool :=
  negb (inString st) && negb (inBlockComment st) && negb (inLineComment st).

(** [a] immediately followed by [b] somewhere in [l]. *)
Fixpoint has_pair (a b : rune) (l : list rune) : bool :=
  match l with
  | [] => false
  | c :: t => ((c =? a) && peek t b) || has_pair a b t
  end.

Definition mem (x : rune) (l : list rune) : bool := existsb (Z.eqb x) l.

(** Text with no string literal and no comment: no quote, no [--], no
    [/*]. *)
Definition plain (l : list rune) : bool :=
  negb (mem quote l) && negb (has_pair dash dash l)
  && negb (has_pair slash star l).

(** A run of decoded characters that does not begin with white space. *)
Definition starts_ok (cs : list chunk) : bool :=
  match cs with
  | [] => true
  | c :: _ => negb (IsSpace (fst c))
  end.

(** Both ends trimmed, as [strings.TrimSpace] does on the decoded string. *)
Definition trim (cs : list chunk) : list chunk :=
  strings.trim_right (strings.trim_left cs).

(** What holds of the locals of [parseSQL] at every iteration: the builder
    holds whole characters, and so does every statement found so far, each
    of them trimmed. *)
Definition encoded (s : gostring) : Prop := exists rs, s = string_of_runes rs.

Definition scanner_ok (st : scanner) : Prop :=
  encoded (currentStmt st)
  /\ Forall trimmed (statements st)
  /\ Forall encoded (statements st).

(** [s] appended to the builder. *)
Definition append (st : scanner) (s : gostring) : scanner :=
  mkScanner (statements st) (currentStmt st ++ s)
            (inString st) (inBlockComment st) (inLineComment st).

(** The pieces of [l] between the occurrences of [x]. *)
Fixpoint split_on (x : rune) (l : list rune) : list (list rune) :=
  match l with
  | [] => [[]]
  | c :: t =>
    if c =? x then [] :: split_on x t
    else
      match split_on x t with
      | s :: ss => (c :: s) :: ss
      | [] => [[c]]
      end
  end.

(** The candidates that survive [flush]: each one trimmed, the blank ones
    dropped. *)
Definition nonblank (segs : list gostring) : list gostring :=
  flat_map (fun s => match strings.TrimSpace s with
                     | [] => []
                     | stmt => [stmt]
                     end) segs.

Definition prefix_first (p : gostring) (segs : list gostring)
  : list gostring :=
  match segs with
  | s :: ss => (p ++ s) :: ss
  | [] => [p]
  end.

(** Number of terminators in the text. *)
Definition terminators (l : list rune) : nat :=
  length (filter (Z.eqb semicolon) l).

Definition blank (s : gostring) : bool :=
  match strings.TrimSpace s with
  | [] => true
  | _ => false
  end.

(** The candidate statements of a text: its pieces between terminators. *)
Definition segments (t : gostring) : list gostring :=
  map string_of_runes (split_on semicolon (runes_of t)).

(** Every terminator of the text closes a statement that is not blank, and
    nothing but white space follows the last one. *)
Definition well_terminated (t : gostring) : bool :=
  forallb (fun s => negb (blank s)) (removelast (segments t))
  && blank (last (segments t) []).

(** The beginnings of [l] that stop just before an occurrence of [x], the
    shortest first. *)
Fixpoint cuts (x : rune) (l : list rune) : list (list rune) :=
  match l with
  | [] => []
  | c :: t => (if c =? x then [[]] else []) ++ map (cons c) (cuts x t)
  end.

(** No terminator is suppressed by string or comment context: at every
    terminator of the text the scanner is in normal mode.  No lookahead of
    the loop tests for a terminator, so the scanner reaches each one in the
    state it has after the text before it ([loop_app_inert]). *)
Definition unsuppressed (l : list rune) : bool :=
  forallb (fun pre => normal (loop pre init)) (cuts semicolon l).

(** What the builder holds once the scanner has read [pre]: the text since
    the last terminator, without its comments. *)
Definition pending (pre : list rune) : gostring := currentStmt (loop pre init).

(** Every terminator of the text closes a statement that is not blank, and
    nothing but white space and comments follows the last one. *)
Definition closes_statements (l : list rune) : bool :=
  forallb (fun pre => negb (blank (pending pre))) (cuts semicolon l)
  && blank (pending l).

(** The character U+0020 as [decode] reads it. *)
Definition space_chunk : chunk := (32, [x20]).

(** Step 1 of Normalize in the specification's own words, to be compared
    with [strings.Join(strings.Fields(stmt), " ")] of the code: every
    maximal run of white space becomes one space character, then both ends
    are trimmed.  [in_run] says that the previous character was white
    space. *)
Fixpoint spec_runs (cs : list chunk) (in_run : bool) : list chunk :=
  match cs with
  | [] => []
  | c :: t =>
    if IsSpace (fst c) then
      if in_run then spec_runs t true else space_chunk :: spec_runs t true
    else c :: spec_runs t false
  end.

Definition spec_collapse (s : gostring) : gostring :=
  strings.bytes_of (trim (spec_runs (decode s) false)).

Definition all_space (cs : list chunk) : bool :=
  forallb (fun c => IsSpace (fst c)) cs.

(** Steps 2 and 3 of Normalize in the specification's words, on the
    collapsed statement [c]. *)
Definition spec_truncated (c : gostring) (maxLen : Z) : gostring :=
  if len c <=? maxLen then c
  else firstn (Z.to_nat (maxLen - 3)) c ++ str "...".

(** A statement of an init file, 58 characters and 60 bytes long; the
    character [ö] of [Malmö] occupies bytes 46 and 47. *)
Definition umlaut_statement : gostring :=
  str "INSERT INTO places (name, state) VALUES ('Malmö', 'Skåne')".

(** Another one, 100 characters and 107 bytes long. *)
Definition towns_statement : gostring :=
  str "INSERT INTO towns (name, county) VALUES ('Malmö', 'Skåne län'), ('Göteborg', 'Västra Götalands län')".

(** ** loadInitFile and what it talks to *)

(** A call to the logger: level, message and fields ([zap.String],
    [zap.Int]). *)
Inductive level := DebugLevel | InfoLevel.

Inductive zap_field :=
| zap_String (key val : gostring)
| zap_Int (key : gostring) (val : Z).

Record entry := mkEntry {
  entry_level : level;
  entry_msg : gostring;
  entry_fields : list zap_field
}.

(** [err.Error()]. *)
Definition Error (e : error) : gostring :=
  match e with
  | errorString msg => msg
  end.

(** What [fmt.Errorf] returns for a format with one [%w]: the formatted
    message and the wrapped error. *)
Record wrapError := mkWrapError {
  wrap_msg : gostring;
  wrap_err : error
}.

(** The verb [%d]. *)
Definition itoa (z : Z) : gostring :=
  str (DecimalString.NilZero.string_of_int (Z.to_int z)).

(** A call either returns or panics. *)
Inductive outcome (A : Type) :=
| Returns (a : A)
| Panics.
Arguments Returns {A} a.
Arguments Panics {A}.

(** The collaborators of [loadInitFile], none of them in this package: the
    file system as [os.ReadFile] sees it, [context.WithTimeout], and the
    database behind [ExecContext], whose state (with the clock that the
    deadline is compared to) is [world]. *)
Class Outside := {
  world : Type;
  context : Type;
  ReadFile : gostring -> gostring + error;
  WithTimeout : Z -> world -> context;
  ExecContext : context -> gostring -> world -> world * option error
}.

(** The fields of [Manager] that [loadInitFile] uses; [logger] holds the
    calls made to it, oldest first. *)
Record Manager `{Outside} := mkManager {
  logger : list entry;
  queryTimeout : Z;
  mainDB : world
}.

Definition log `{Outside} (m : Manager) (l : level) (msg : gostring)
  (fields : list zap_field) : Manager :=
  mkManager _ (logger m ++ [mkEntry l msg fields]) (queryTimeout m) (mainDB m).

Definition set_mainDB `{Outside} (m : Manager) (w : world) : Manager :=
  mkManager _ (logger m) (queryTimeout m) w.

(** [for i, stmt := range statements] of [loadInitFile], from index [i] on.
    [i] is below [len(statements)], so [i+1] does not overflow. *)
Fixpoint exec_statements `{Outside} (ctx : context) (i : Z)
  (statements : list gostring) (m : Manager)
  : Manager * outcome (option wrapError) :=
  match statements with
  | [] => (m, Returns None)
  | stmt :: rest =>
    match truncateStatement stmt 100 with
    | None => (m, Panics)
    | Some shown =>
      let m := log m DebugLevel (str "Executing init statement")
                   [zap_Int (str "index") (i + 1);
                    zap_String (str "statement") shown] in
      let '(db, err) := ExecContext ctx stmt (mainDB m) in
      let m := set_mainDB m db in
      match err with
      | Some err =>
        match truncateStatement stmt 50 with
        | None => (m, Panics)
        | Some shown =>
          (m, Returns (Some (mkWrapError
                 (str "failed to execute init statement " ++ itoa (i + 1)
                  ++ str " (" ++ shown ++ str "): " ++ Error err)
                 err)))
        end
      | None => exec_statements ctx (i + 1) rest m
      end
    end
  end.

Definition loadInitFile `{Outside} (m : Manager) (path : gostring)
  : Manager * outcome (option wrapError) :=
  match ReadFile path with
  | inr err =>
    (m, Returns (Some (mkWrapError
           (str "failed to read init file '" ++ path ++ str "': "
            ++ Error err) err)))
  | inl content =>
    match parseSQL content with
    | (_, Some err) =>
      (m, Returns (Some (mkWrapError
             (str "failed to parse init file '" ++ path ++ str "': "
              ++ Error err) err)))
    | (statements, None) =>
      if Z.of_nat (length statements) =? 0 then
        (log m InfoLevel (str "Init file is empty, skipping")
             [zap_String (str "path") path],
         Returns None)
      else
        let m := log m InfoLevel (str "Executing init SQL file")
                     [zap_String (str "path") path;
                      zap_Int (str "statements")
                              (Z.of_nat (length statements))] in
        let ctx := WithTimeout (queryTimeout m) (mainDB m) in
        match exec_statements ctx 0 statements m with
        | (m, Returns None) =>
          (log m InfoLevel (str "Init SQL file executed successfully")
               [zap_String (str "path") path;
                zap_Int (str "statements_executed")
                        (Z.of_nat (length statements))],
           Returns None)
        | failed => failed
        end
    end
  end.

(** The database after the statements have run one after the other. *)
Definition run_all `{Outside} (ctx : context) (stmts : list gostring)
  (w : world) : world :=
  fold_left (fun w stmt => fst (ExecContext ctx stmt w)) stmts w.

(** The first statement the database rejects, when they are run one after
    the other from [w]: its position and the error. *)
Fixpoint first_error `{Outside} (ctx : context) (stmts : list gostring)
  (w : world) : option (nat * error) :=
  match stmts with
  | [] => None
  | stmt :: rest =>
    match ExecContext ctx stmt w with
    | (_, Some err) => Some (0%nat, err)
    | (w', None) =>
      match first_error ctx rest w' with
      | Some (k, err) => Some (S k, err)
      | None => None
      end
    end
  end.

(** ** Notions used in the further properties *)

(** A tab, newline, vertical tab, form feed or carriage return. *)
Definition line_break (b : byte) : bool := (9 <=? b2z b) && (b2z b <=? 13).

(** The bytes of a decoded character: one ASCII byte, or bytes that are all
    above the ASCII range. *)
Definition chunk_shape (c : chunk) : Prop :=
  (snd c = [z2b (fst c)] /\ 0 <= fst c < 128)
  \/ Forall (fun b => 128 <= b2z b) (snd c).

Definition chunk_clean (c : chunk) : Prop :=
  existsb line_break (snd c) = false /\ snd c <> [].

(** A logged field named [statement] shows at most [n] bytes, on one
    line. *)
Definition field_short (n : Z) (f : zap_field) : Prop :=
  match f with
  | zap_String key val =>
    key = str "statement" -> len val <= n /\ existsb line_break val = false
  | zap_Int _ _ => True
  end.

Definition entry_short (n : Z) (e : entry) : Prop :=
  Forall (field_short n) (entry_fields e).

(** A database for trying the theorems on: its state is the list of the
    statements it was given, and it rejects the statement [FAIL].  The only
    file is [init.sql]. *)
Definition init_sql : gostring :=
  str "CREATE TABLE t (a INT); -- one table
INSERT INTO t VALUES (';'); FAIL; DROP TABLE t;".

Definition recording : Outside := {|
  world := list gostring;
  context := unit;
  ReadFile := fun path =>
    if list_eq_dec Byte.byte_eq_dec path (str "init.sql")
    then inl init_sql
    else if list_eq_dec Byte.byte_eq_dec path (str "ok.sql")
    then inl (str "INSTALL httpfs; LOAD httpfs;")
    else inr (errorString (str "no such file or directory"));
  WithTimeout := fun _ _ => tt;
  ExecContext := fun _ stmt w =>
    (w ++ [stmt],
     if list_eq_dec Byte.byte_eq_dec stmt (str "FAIL")
     then Some (errorString (str "syntax error"))
     else None)
|}.

Definition fresh : @Manager recording := @mkManager recording [] 30 [].

(** At most one of the three flags of the scanner is set. *)
Definition one_mode (st : scanner) : bool :=
  match inString st, inBlockComment st, inLineComment st with
  | true, true, _ | true, _, true | _, true, true => false
  | _, _, _ => true
  end.

(** [pre] put in front of the statements found so far. *)
Definition prepend (pre : list gostring) (st : scanner) : scanner :=
  mkScanner (pre ++ statements st) (currentStmt st)
            (inString st) (inBlockComment st) (inLineComment st).

(** A rune that no lookahead of the loop tests for. *)
Definition inert (c : rune) : bool :=
  negb (c =? quote) && negb (c =? dash) && negb (c =? star)
  && negb (c =? slash).

(** A string without the terminator, written rune by rune. *)
Definition semi_free (s : gostring) : Prop :=
  exists rs, s = string_of_runes rs /\ Forall (fun r => r <> semicolon) rs.

(** [l1] is [l2] with some elements left out. *)
Inductive subseq {A : Type} : list A -> list A -> Prop :=
| subseq_nil : subseq [] []
| subseq_skip x l1 l2 : subseq l1 l2 -> subseq l1 (x :: l2)
| subseq_take x l1 l2 : subseq l1 l2 -> subseq (x :: l1) (x :: l2).

(** A string written rune by rune from runes of [X], in the order of [X]. *)
Definition drawn_from (X : list Z) (s : gostring) : Prop :=
  exists rs, s = string_of_runes rs /\ subseq rs X.

(** ** formats: JSON responses with pagination

    [WriteJSON] and [generateHATEOASLinks], with what they use of
    [net/url], [database/sql], [net/http] and [encoding/json]. *)

Module formats.

(** *** Maps with string keys

    A Go map as the list of its entries; [map_set] overwrites.  The order
    of the list is not observable through [map_get]. *)

Definition bytes_eqb (a b : gostring) : bool :=
  if list_eq_dec Byte.byte_eq_dec a b then true else false.

Fixpoint map_get {V : Type} (m : list (gostring * V)) (k : gostring)
  : option V :=
  match m with
  | [] => None
  | (k', v) :: t => if bytes_eqb k' k then Some v else map_get t k
  end.

Fixpoint map_set {V : Type} (m : list (gostring * V)) (k : gostring) (v : V)
  : list (gostring * V) :=
  match m with
  | [] => [(k, v)]
  | (k', v') :: t =>
    if bytes_eqb k' k then (k, v) :: t else (k', v') :: map_set t k v
  end.

(** *** net/url *)

(** [url.Values], a [map[string][]string]. *)
Abbreviation Values := (list (list byte * list (list byte))).

(** [v[key]]: [nil] when the key is absent. *)
Definition values_get (v : Values) (key : gostring) : list gostring :=
  match map_get v key with
  | Some vs => vs
  | None => []
  end.

(** [Values.Add]. *)
Definition Add (v : Values) (key value : gostring) : Values :=
  map_set v key (values_get v key ++ [value]).

(** [Values.Set]. *)
Definition Set_ (v : Values) (key value : gostring) : Values :=
  map_set v key [value].

(** [shouldEscape(c, encodeQueryComponent)]: only letters, digits and
    [-_.~] are left as they are. *)
Definition shouldEscape (c : byte) : bool :=
  let z := b2z c in
  negb (((0x61 <=? z) && (z <=? 0x7A)) || ((0x41 <=? z) && (z <=? 0x5A))
        || ((0x30 <=? z) && (z <=? 0x39))
        || (z =? 0x2D) || (z =? 0x5F) || (z =? 0x2E) || (z =? 0x7E)).

Definition upperhex (n : Z) : byte :=
  nth (Z.to_nat n) (str "0123456789ABCDEF") x00.

(** [url.QueryEscape]. *)
Definition QueryEscape (s : gostring) : gostring :=
  flat_map (fun c =>
              if shouldEscape c then
                if b2z c =? 0x20 then [x2b]
                else [x25; upperhex (b2z c / 16); upperhex (b2z c mod 16)]
              else [c]) s.

(** [a < b] on strings: byte by byte. *)
Fixpoint string_ltb (a b : gostring) : bool :=
  match a, b with
  | _, [] => false
  | [], _ :: _ => true
  | x :: a', y :: b' =>
    (b2z x <? b2z y) || ((b2z x =? b2z y) && string_ltb a' b')
  end.

Fixpoint insert_sorted (k : gostring) (l : list gostring) : list gostring :=
  match l with
  | [] => [k]
  | h :: t => if string_ltb h k then h :: insert_sorted k t else k :: h :: t
  end.

(** [slices.Sort] on the keys. *)
Definition sort_keys (l : list gostring) : list gostring :=
  fold_right insert_sorted [] l.

(** [Values.Encode]: [key=value] pairs, keys in sorted order, joined by
    [&]. *)
Definition Encode (v : Values) : gostring :=
  strings.Join
    (flat_map (fun k =>
                 map (fun value => QueryEscape k ++ str "=" ++ QueryEscape value)
                     (values_get v k))
              (sort_keys (map fst v)))
    (str "&").

(** *** generateHATEOASLinks *)

Definition int_add (a b : Z) : Z := wrap_int (a + b).

(** A parameter of the request that the links keep. *)
Definition kept (key : gostring) : bool :=
  negb (bytes_eqb key (str "page")) && negb (bytes_eqb key (str "links")).

(** [for key, values := range query] of [buildURL], on the map [q].
    ([range] over a map visits the keys in no fixed order; the map that
    results does not depend on it.) *)
Definition copy_query (query q : Values) : Values :=
  fold_left
    (fun q (kv : gostring * list gostring) =>
       let '(key, values) := kv in
       if kept key then fold_left (fun q v => Add q key v) values q else q)
    query q.

(** The query of the link to [targetPage]: the parameters of the request
    except [page] and [links], then [page] and [links=true]. *)
Definition link_query (query : Values) (targetPage : Z) : Values :=
  let q := copy_query query [] in
  let q := Set_ q (str "page") (itoa targetPage) in
  Set_ q (str "links") (str "true").

(** The closure [buildURL]. *)
Definition buildURL (basePath : gostring) (query : Values) (targetPage : Z)
  : gostring :=
  basePath ++ str "?" ++ Encode (link_query query targetPage).

Definition generateHATEOASLinks (basePath : gostring) (query : Values)
  (page limit totalPages : Z) : list (gostring * gostring) :=
  let links := [] in
  let links := map_set links (str "self") (buildURL basePath query page) in
  let links := map_set links (str "first") (buildURL basePath query 1) in
  let links :=
    if 0 <? totalPages
    then map_set links (str "last") (buildURL basePath query totalPages)
    else links in
  let links :=
    if 1 <? page
    then map_set links (str "prev") (buildURL basePath query (int_sub page 1))
    else links in
  if page <? totalPages
  then map_set links (str "next") (buildURL basePath query (int_add page 1))
  else links.

(** *** WriteJSON *)

(** What a scanned column holds ([interface{}]): [nil], a [[]byte], or some
    other value of the driver, of a type [any] that is not looked into. *)
Inductive dbvalue (any : Type) :=
| DBNil
| DBBytes (b : gostring)
| DBOther (v : any).
Arguments DBNil {any}.
Arguments DBBytes {any} b.
Arguments DBOther {any} v.

(** The values [WriteJSON] stores: a scanned value as it is put into a row
    ([nil], a string, or the driver's value), an [int] or [int64], a
    [bool]. *)
Inductive scalar (any : Type) :=
| JNil
| JString (s : gostring)
| JOther (v : any)
| JInt (n : Z)
| JBool (b : bool).
Arguments JNil {any}.
Arguments JString {any} s.
Arguments JOther {any} v.
Arguments JInt {any} n.
Arguments JBool {any} b.

(** What the keys of [response] are bound to: a single value, a map
    ([pagination], [_links]), or the slice of row maps ([data]). *)
Inductive jvalue (any : Type) :=
| JScalar (v : scalar any)
| JObject (fields : list (gostring * scalar any))
| JRows (rows : list (list (gostring * scalar any))).
Arguments JScalar {any} v.
Arguments JObject {any} fields.
Arguments JRows {any} rows.

(** [sql.Rows] as [WriteJSON] reads it: the answer of [Columns], for each
    row for which [Next] is true what [Scan] stores or the error it returns,
    and the answer of [Err] once [Next] is false. *)
Record Rows (any : Type) := mkRows {
  Columns : list gostring + error;
  scans : list (list (dbvalue any) + error);
  Err : option error
}.
Arguments Columns {any} r.
Arguments scans {any} r.
Arguments Err {any} r.

(** [LinksConfig]. *)
Record LinksConfig := mkLinksConfig {
  Enabled : bool;
  BasePath : gostring;
  Query : Values
}.

(** The [http.ResponseWriter] and the JSON encoder writing to it. *)
Class Web := {
  any : Type;
  ResponseWriter : Type;
  Header_Set : ResponseWriter -> gostring -> gostring -> ResponseWriter;
  WriteHeader : ResponseWriter -> Z -> ResponseWriter;
  Encoder_Encode :
    ResponseWriter -> list (gostring * jvalue any)
    -> ResponseWriter * option error
}.

(** The error [WriteJSON] returns: one it made with [fmt.Errorf], or the
    encoder's. *)
Inductive failure :=
| Wrapped (e : wrapError)
| Direct (e : error).

Definition Errorf (msg : gostring) (err : error) : failure :=
  Wrapped (mkWrapError (msg ++ Error err) err).

Section WriteJSON.
Context `{Web}.

(** The [switch v := val.(type)] of the row loop. *)
Definition convert (val : dbvalue any) : scalar any :=
  match val with
  | DBNil => JNil
  | DBBytes v => JString v
  | DBOther v => JOther v
  end.

(** [rowMap] for one row: [values] is as long as [columns], a place that
    [Scan] did not fill holds [nil]. *)
Definition row_map (columns : list gostring) (values : list (dbvalue any))
  : list (gostring * scalar any) :=
  fst (fold_left
         (fun (acc : list (gostring * scalar any) * nat) col =>
            let '(rowMap, i) := acc in
            (map_set rowMap col (convert (nth i values DBNil)),
             S i))
         columns ([], 0%nat)).

(** [for rows.Next()]: the rows left, [data] and [rowCount] so far
    ([rowCount] counts rows in memory and cannot overflow). *)
Fixpoint scan_rows (columns : list gostring)
  (rest : list (list (dbvalue any) + error))
  (data : list (list (gostring * scalar any))) (rowCount : Z)
  : (list (list (gostring * scalar any)) * Z) + failure :=
  match rest with
  | [] => inl (data, rowCount)
  | scan :: rest =>
    let rowCount := rowCount + 1 in
    match scan with
    | inr err => inr (Errorf (str "failed to scan row: ") err)
    | inl values =>
      scan_rows columns rest (data ++ [row_map columns values])
                rowCount
    end
  end.

(** [totalPages] of the pagination block, in [int64] arithmetic. *)
Definition total_pages (totalRows limit : Z) : Z :=
  if 0 <? totalRows
  then Z.quot (int_sub (int_add totalRows limit) 1) limit
  else 0.

Definition links_object (l : list (gostring * gostring))
  : jvalue any :=
  JObject (map (fun kv => (fst kv, JString (snd kv))) l).

(** The map [response], from "Build response" to "Write response". *)
Definition build_response (data : list (list (gostring * scalar any)))
  (rowCount : Z)
  (page limit totalRows : Z) (paginationRequested : bool) (safetyLimit : Z)
  (linksConfig : option LinksConfig) : list (gostring * jvalue any) :=
  let response := [(str "data", JRows data)] in
  if paginationRequested && (0 <? limit) then
    let totalPages := total_pages totalRows limit in
    let response :=
      map_set response (str "pagination")
        (JObject [(str "page", JInt page);
                  (str "limit", JInt limit);
                  (str "total_rows", JInt totalRows);
                  (str "total_pages", JInt totalPages)]) in
    match linksConfig with
    | Some cfg =>
      if Enabled cfg then
        map_set response (str "_links")
          (links_object
             (generateHATEOASLinks (BasePath cfg) (Query cfg)
                                           page limit totalPages))
      else response
    | None => response
    end
  else if negb paginationRequested then
    let truncated :=
      (0 <? safetyLimit) && (safetyLimit <=? rowCount)
      && (rowCount <? totalRows) in
    if truncated then
      let response :=
        map_set response (str "truncated") (JScalar (JBool true)) in
      let response :=
        map_set response (str "message")
          (JScalar (JString
             (str "Results limited to " ++ itoa safetyLimit
              ++ str " rows by safety limit. Use pagination (?limit=X&page=Y) to access more data."))) in
      map_set response (str "total_available") (JScalar (JInt totalRows))
    else response
  else response.

Definition WriteJSON (w : ResponseWriter) (rows : Rows any)
  (page limit totalRows : Z) (paginationRequested : bool) (safetyLimit : Z)
  (linksConfig : option LinksConfig) : ResponseWriter * option failure :=
  match Columns rows with
  | inr err => (w, Some (Errorf (str "failed to get columns: ") err))
  | inl columns =>
    match scan_rows columns (scans rows) [] 0 with
    | inr failed => (w, Some failed)
    | inl (data, rowCount) =>
      match Err rows with
      | Some err => (w, Some (Errorf (str "error iterating rows: ") err))
      | None =>
        let response :=
          build_response data rowCount page limit totalRows
                         paginationRequested safetyLimit linksConfig in
        let w := Header_Set w (str "Content-Type") (str "application/json") in
        let w := WriteHeader w 200 in
        let '(w, err) := Encoder_Encode w response in
        (w, option_map Direct err)
      end
    end
  end.

End WriteJSON.

(** A response writer for trying the theorems on: it keeps the headers, the
    status and the responses it was asked to encode. *)
Definition recorder : Web := {|
  any := Z;
  ResponseWriter :=
    (list (gostring * gostring) * option Z
     * list (list (gostring * jvalue Z)))%type;
  Header_Set := fun '(h, s, b) key value => (map_set h key value, s, b);
  WriteHeader := fun '(h, s, b) code =>
    (h, match s with None => Some code | Some _ => s end, b);
  Encoder_Encode := fun '(h, s, b) v => ((h, s, b ++ [v]), None)
|}.

Definition people : Rows Z :=
  mkRows Z (inl [str "id"; str "name"])
         [inl [DBOther 1; DBBytes (str "ann")]; inl [DBNil; DBBytes (str "bob")]]
         None.

End formats.

(** * Proofs *)

(** ** The UTF-8 codec *)

Lemma b2z_range b : 0 <= b2z b < 256.
Proof.
  unfold b2z. pose proof (Byte.to_N_bounded b). lia.
Qed.

Lemma b2z_z2b z : 0 <= z < 256 -> b2z (z2b z) = z.
Proof.
  intros Hz. unfold b2z, z2b.
  destruct (Byte.of_N (Z.to_N z)) as [b|] eqn:E.
  - apply Byte.to_of_N in E. rewrite E. lia.
  - apply Byte.of_N_None_iff in E. lia.
Qed.

Lemma z2b_b2z b : z2b (b2z b) = b.
Proof.
  unfold b2z, z2b. rewrite N2Z.id, Byte.of_to_N. reflexivity.
Qed.

Ltac zbool :=
  repeat match goal with
  | H : (_ && _)%bool = true |- _ => apply andb_true_iff in H; destruct H
  | H : (_ && _)%bool = false |- _ => apply andb_false_iff in H
  | H : (_ || _)%bool = true |- _ => apply orb_true_iff in H
  | H : (_ || _)%bool = false |- _ => apply orb_false_iff in H; destruct H
  | H : negb _ = true |- _ => apply negb_true_iff in H
  | H : negb _ = false |- _ => apply negb_false_iff in H
  | H : (_ <=? _) = true |- _ => apply Z.leb_le in H
  | H : (_ <=? _) = false |- _ => apply Z.leb_gt in H
  | H : (_ <? _) = true |- _ => apply Z.ltb_lt in H
  | H : (_ <? _) = false |- _ => apply Z.ltb_ge in H
  | H : (_ =? _) = true |- _ => apply Z.eqb_eq in H
  | H : (_ =? _) = false |- _ => apply Z.eqb_neq in H
  | H : _ \/ _ |- _ => destruct H
  end.

Ltac zlia := zbool; Z.div_mod_to_equations; lia.

(* resolve the guards of the goal one by one, the false side by arithmetic *)
Ltac guards :=
  repeat (cbn [length Nat.ltb Nat.leb];
          match goal with
          | |- context [if ?c then _ else _] =>
            let E := fresh "G" in destruct c eqn:E; zbool; try (exfalso; zlia)
          end).

Lemma decode_encode r s :
  utf8.DecodeRuneInString (utf8.EncodeRune r ++ s)
  = (fix_rune r, length (utf8.EncodeRune r)).
Proof.
  unfold utf8.EncodeRune, fix_rune, utf8.ValidRune, utf8.MaxRune.
  destruct ((0 <=? r) && (r <=? 127))%bool eqn:E1;
    [| destruct ((0 <=? r) && (r <=? 2047))%bool eqn:E2;
       [| destruct (((0 <=? r) && (r <? 55296)) || ((57343 <? r) && (r <=? 1114111)))%bool eqn:E3;
          cbn [negb]; [destruct (r <=? 65535) eqn:E4|]]];
  cbn [app length]; unfold utf8.DecodeRuneInString, utf8.at_; cbn [nth];
  unfold utf8.RuneSelf, utf8.first, utf8.locb, utf8.hicb, utf8.RuneError.
  - rewrite b2z_z2b by zlia. guards. reflexivity.
  - rewrite !b2z_z2b by zlia. guards. f_equal; zlia.
  - rewrite !b2z_z2b by zlia. guards. all: f_equal; zlia.
  - rewrite !b2z_z2b by zlia. guards. all: f_equal; zlia.
  - change (b2z xef) with 239. change (b2z xbf) with 191.
    change (b2z xbd) with 189. reflexivity.
Qed.

Lemma decode_width s :
  s <> [] ->
  (1 <= snd (utf8.DecodeRuneInString s) <= length s)%nat.
Proof.
  intros Hs. unfold utf8.DecodeRuneInString.
  destruct s as [|b0 s]; [congruence|].
  destruct (utf8.at_ (b0 :: s) 0 <? utf8.RuneSelf); [cbn; lia|].
  destruct (utf8.first _) as [[[sz lo] hi]|] eqn:F; [|cbn; lia].
  assert (Hsz : (2 <= sz <= 4)%nat).
  { unfold utf8.first in F.
    repeat match type of F with
           | (if ?c then _ else _) = _ => destruct c
           end; inversion F; lia. }
  destruct (length (b0 :: s) <? sz)%nat eqn:L; [cbn; lia|].
  apply Nat.ltb_ge in L.
  repeat match goal with
         | |- context [if ?c then _ else _] => destruct c eqn:?
         end; cbn [snd]; try (cbn [length]; lia).
  all: repeat match goal with
         | H : (_ <=? _)%nat = true |- _ => apply Nat.leb_le in H
         | H : (_ <=? _)%nat = false |- _ => apply Nat.leb_gt in H
         end; lia.
Qed.

Ltac guards_in D :=
  repeat (cbn [length Nat.ltb Nat.leb nth] in D;
          match type of D with
          | context [if ?c then _ else _] =>
            let E := fresh "G" in destruct c eqn:E; zbool; try (exfalso; zlia)
          end).

Ltac bytes_eq :=
  repeat match goal with
  | |- _ :: _ = _ :: _ => f_equal
  | |- z2b _ = ?b =>
    transitivity (z2b (b2z b)); [f_equal; zlia | apply z2b_b2z]
  end.

Lemma encode_decode s r w :
  utf8.DecodeRuneInString s = (r, w) ->
  s <> [] ->
  (r, w) <> (utf8.RuneError, 1%nat) ->
  utf8.EncodeRune r = firstn w s.
Proof.
  intros D Hs Hne.
  destruct s as [|b0 s]; [congruence|].
  pose proof (b2z_range b0).
  unfold utf8.DecodeRuneInString, utf8.at_ in D. cbn [nth] in D.
  unfold utf8.RuneSelf, utf8.first, utf8.locb, utf8.hicb in D.
  destruct s as [|b1 [|b2 [|b3 s]]];
    try pose proof (b2z_range b1); try pose proof (b2z_range b2);
    try pose proof (b2z_range b3);
    guards_in D; try congruence.
  all: inversion D; subst r w; clear D Hne; cbn [firstn].
  all: unfold utf8.EncodeRune, utf8.ValidRune, utf8.MaxRune; cbn [negb].
  all: guards; bytes_eq.
Qed.

(** ** Walking a string *)

Lemma decode_fuel_irrelevant f1 : forall f2 s,
  (length s <= f1)%nat -> (length s <= f2)%nat ->
  decode_fuel f1 s = decode_fuel f2 s.
Proof.
  induction f1 as [|f1 IH]; intros f2 s H1 H2.
  - destruct s; [destruct f2; reflexivity | cbn in H1; lia].
  - destruct s as [|b s]; [destruct f2; reflexivity|].
    destruct f2 as [|f2]; [cbn in H2; lia|].
    pose proof (decode_width (b :: s) ltac:(congruence)) as W.
    cbn [length] in H1, H2, W. cbn [decode_fuel].
    destruct (utf8.DecodeRuneInString (b :: s)) as [r w]. cbn [snd] in W.
    f_equal.
    assert (L : (length (skipn w (b :: s)) <= length s)%nat).
    { rewrite length_skipn. cbn [length]. lia. }
    apply IH; lia.
Qed.

Lemma decode_fuel_enough f s :
  (length s <= f)%nat -> decode_fuel f s = decode s.
Proof.
  intros H. apply decode_fuel_irrelevant; [exact H | apply Nat.le_refl].
Qed.

Lemma decode_nil : decode [] = [].
Proof. reflexivity. Qed.

Lemma decode_step s :
  s <> [] ->
  decode s = (fst (utf8.DecodeRuneInString s),
              firstn (snd (utf8.DecodeRuneInString s)) s)
             :: decode (skipn (snd (utf8.DecodeRuneInString s)) s).
Proof.
  intros Hs. pose proof (decode_width s Hs) as W.
  destruct s as [|b s]; [congruence|].
  unfold decode at 1. cbn [length decode_fuel].
  destruct (utf8.DecodeRuneInString (b :: s)) as [r w]. cbn [fst snd] in *.
  f_equal. apply decode_fuel_enough.
  rewrite length_skipn. cbn [length]. lia.
Qed.

Lemma encode_nonempty r : utf8.EncodeRune r <> [].
Proof.
  unfold utf8.EncodeRune.
  repeat match goal with |- context [if ?c then _ else _] => destruct c end;
    discriminate.
Qed.

Lemma decode_encode_app r s :
  decode (utf8.EncodeRune r ++ s) = (fix_rune r, utf8.EncodeRune r) :: decode s.
Proof.
  rewrite decode_step.
  - rewrite decode_encode. cbn [fst snd].
    rewrite firstn_app, Nat.sub_diag, firstn_all, firstn_O, app_nil_r.
    rewrite skipn_app, Nat.sub_diag, skipn_all, skipn_O. reflexivity.
  - pose proof (encode_nonempty r). destruct (utf8.EncodeRune r); [congruence | discriminate].
Qed.

Lemma decode_string_of_runes rs :
  decode (string_of_runes rs) = map chunk_of rs.
Proof.
  induction rs as [|r rs IH]; [reflexivity|].
  cbn [string_of_runes flat_map map]. rewrite decode_encode_app. f_equal. exact IH.
Qed.

Lemma bytes_of_decode s : strings.bytes_of (decode s) = s.
Proof.
  remember (length s) as n eqn:Hn. revert s Hn.
  induction n as [n IH] using lt_wf_ind. intros s Hn.
  destruct s as [|b s]; [reflexivity|].
  rewrite decode_step by congruence.
  pose proof (decode_width (b :: s) ltac:(congruence)) as W.
  destruct (utf8.DecodeRuneInString (b :: s)) as [r w]. cbn [fst snd] in *.
  unfold strings.bytes_of in *. cbn [flat_map snd].
  rewrite (IH (length (skipn w (b :: s)))); [apply firstn_skipn | | reflexivity].
  rewrite length_skipn. lia.
Qed.

(** ** Trimming *)

Lemma trim_left_id cs : starts_ok cs = true -> strings.trim_left cs = cs.
Proof.
  destruct cs as [|c t]; [reflexivity|]. cbn. intros H.
  apply negb_true_iff in H. rewrite H. reflexivity.
Qed.

Lemma trim_left_starts cs : starts_ok (strings.trim_left cs) = true.
Proof.
  induction cs as [|c t IH]; [reflexivity|]. cbn.
  destruct (IsSpace (fst c)) eqn:E; [exact IH|]. cbn. rewrite E. reflexivity.
Qed.

Lemma trim_left_snoc l c :
  IsSpace (fst c) = false ->
  strings.trim_left (l ++ [c]) = strings.trim_left l ++ [c].
Proof.
  intros Hc. induction l as [|a l IH]; cbn.
  - rewrite Hc. reflexivity.
  - destruct (IsSpace (fst a)); [exact IH | reflexivity].
Qed.

Lemma trim_right_cons c t :
  IsSpace (fst c) = false ->
  strings.trim_right (c :: t) = c :: strings.trim_right t.
Proof.
  intros Hc. unfold strings.trim_right. cbn [rev].
  rewrite trim_left_snoc by exact Hc. rewrite rev_app_distr. reflexivity.
Qed.

Lemma trim_right_starts cs :
  starts_ok cs = true -> starts_ok (strings.trim_right cs) = true.
Proof.
  destruct cs as [|c t]; [reflexivity|]. cbn [starts_ok]. intros H.
  apply negb_true_iff in H. rewrite trim_right_cons by exact H.
  cbn. rewrite H. reflexivity.
Qed.

Lemma trim_right_ends cs : starts_ok (rev (strings.trim_right cs)) = true.
Proof.
  unfold strings.trim_right. rewrite rev_involutive. apply trim_left_starts.
Qed.

Lemma trim_right_id cs :
  starts_ok (rev cs) = true -> strings.trim_right cs = cs.
Proof.
  intros H. unfold strings.trim_right. rewrite trim_left_id by exact H.
  apply rev_involutive.
Qed.

Lemma trim_ok cs :
  starts_ok (trim cs) = true /\ starts_ok (rev (trim cs)) = true.
Proof.
  unfold trim. split.
  - apply trim_right_starts, trim_left_starts.
  - apply trim_right_ends.
Qed.

Lemma trim_fixed cs :
  starts_ok cs = true -> starts_ok (rev cs) = true -> trim cs = cs.
Proof.
  intros H1 H2. unfold trim. rewrite trim_left_id by exact H1.
  apply trim_right_id, H2.
Qed.

(** Trimming a list of well-formed characters leaves such a list. *)
Lemma trim_left_canon rs :
  exists rs', strings.trim_left (map chunk_of rs) = map chunk_of rs'.
Proof.
  induction rs as [|r rs IH]; [exists []; reflexivity|].
  cbn [map strings.trim_left].
  destruct (IsSpace (fst (chunk_of r))); [exact IH|].
  exists (r :: rs). reflexivity.
Qed.

Lemma trim_canon rs : exists rs', trim (map chunk_of rs) = map chunk_of rs'.
Proof.
  unfold trim, strings.trim_right.
  destruct (trim_left_canon rs) as [r1 E1]. rewrite E1.
  rewrite <- map_rev.
  destruct (trim_left_canon (rev r1)) as [r2 E2]. rewrite E2.
  exists (rev r2). rewrite map_rev. reflexivity.
Qed.

Lemma bytes_of_canon rs :
  strings.bytes_of (map chunk_of rs) = string_of_runes rs.
Proof.
  unfold strings.bytes_of, string_of_runes.
  induction rs as [|r rs IH]; [reflexivity|]. cbn. rewrite IH. reflexivity.
Qed.

Lemma TrimSpace_canon rs :
  exists rs',
    strings.TrimSpace (string_of_runes rs) = string_of_runes rs'
    /\ map chunk_of rs' = trim (map chunk_of rs).
Proof.
  destruct (trim_canon rs) as [rs' E]. exists rs'. split; [|symmetry; exact E].
  unfold strings.TrimSpace. rewrite decode_string_of_runes.
  fold (trim (map chunk_of rs)). rewrite E. apply bytes_of_canon.
Qed.

Lemma hd_error_map_fst (cs : list chunk) :
  is_space_opt (hd_error (map fst cs)) = negb (starts_ok cs).
Proof.
  destruct cs as [|c t]; cbn; [reflexivity|]. rewrite negb_involutive. reflexivity.
Qed.

(** What [strings.TrimSpace] returns for the contents of a builder that was
    filled with [WriteRune] has no white space at either end. *)
Lemma TrimSpace_trimmed rs :
  strings.TrimSpace (string_of_runes rs) <> [] ->
  trimmed (strings.TrimSpace (string_of_runes rs)).
Proof.
  intros Hne. destruct (TrimSpace_canon rs) as [rs' [E C]].
  destruct (trim_ok (map chunk_of rs)) as [S1 S2]. rewrite <- C in S1, S2.
  split; [exact Hne|]. rewrite E.
  unfold first_rune, last_rune, runes_of, strings.TrimSpace.
  rewrite decode_string_of_runes.
  repeat split.
  - fold (trim (map chunk_of rs')). rewrite trim_fixed by assumption.
    apply bytes_of_canon.
  - rewrite hd_error_map_fst. apply negb_false_iff. exact S1.
  - rewrite <- map_rev, hd_error_map_fst. apply negb_false_iff. exact S2.
Qed.

(** ** The scanning loop *)

Lemma string_of_runes_app a b :
  string_of_runes (a ++ b) = string_of_runes a ++ string_of_runes b.
Proof. unfold string_of_runes. apply flat_map_app. Qed.

Lemma encoded_write b r : encoded b -> encoded (strings.WriteRune b r).
Proof.
  intros [rs E]. exists (rs ++ [r]). subst b.
  rewrite string_of_runes_app. unfold strings.WriteRune. cbn.
  rewrite app_nil_r. reflexivity.
Qed.

Lemma encoded_TrimSpace s : encoded s -> encoded (strings.TrimSpace s).
Proof.
  intros [rs E]. subst s. destruct (TrimSpace_canon rs) as [rs' [E _]].
  exists rs'. exact E.
Qed.

Lemma flush_ok st :
  scanner_ok st -> Forall trimmed (flush st) /\ Forall encoded (flush st).
Proof.
  intros [Hc [Ht He]]. unfold flush.
  pose proof (encoded_TrimSpace _ Hc) as Henc.
  destruct Hc as [rs Hc]. pose proof (TrimSpace_trimmed rs) as T.
  rewrite <- Hc in T.
  destruct (strings.TrimSpace (currentStmt st)) as [|b s] eqn:E.
  - split; assumption.
  - split; apply Forall_app; split; try assumption; constructor; auto.
    apply T. discriminate.
Qed.

Lemma skip_length rest : (length (skip rest) <= length rest)%nat.
Proof. destruct rest; cbn; lia. Qed.

Lemma write_ok st r : scanner_ok st -> scanner_ok (write st r).
Proof.
  intros [Hc [Ht He]]. split; [|split]; cbn; auto using encoded_write.
Qed.

Lemma set_inString_ok st b : scanner_ok st -> scanner_ok (set_inString st b).
Proof. intros H. exact H. Qed.

Lemma set_inBlockComment_ok st b :
  scanner_ok st -> scanner_ok (set_inBlockComment st b).
Proof. intros H. exact H. Qed.

Lemma set_inLineComment_ok st b :
  scanner_ok st -> scanner_ok (set_inLineComment st b).
Proof. intros H. exact H. Qed.

Lemma terminate_ok st : scanner_ok st -> scanner_ok (terminate st).
Proof.
  intros H. split; [exists []; reflexivity | apply flush_ok, H].
Qed.

Create HintDb scan.
#[local] Hint Resolve write_ok set_inString_ok set_inBlockComment_ok
  set_inLineComment_ok terminate_ok : scan.

Lemma loop_ok : forall runes st, scanner_ok st -> scanner_ok (loop runes st).
Proof.
  intros runes. remember (length runes) as n eqn:Hn. revert runes Hn.
  induction n as [n IH] using lt_wf_ind. intros runes Hn st Hst.
  destruct runes as [|c rest]; [exact Hst|].
  cbn [length] in Hn. pose proof (skip_length rest) as Hs.
  assert (R : forall st', scanner_ok st' -> scanner_ok (loop rest st')).
  { intros st'. apply (IH (length rest)); [lia | reflexivity]. }
  assert (K : forall st', scanner_ok st' -> scanner_ok (loop (skip rest) st')).
  { intros st'. apply (IH (length (skip rest))); [lia | reflexivity]. }
  cbn [loop].
  repeat match goal with
         | |- context [if ?b then _ else _] => destruct b
         end;
    first [apply R | apply K]; auto with scan.
Qed.

Lemma init_ok : scanner_ok init.
Proof.
  split; [exists []; reflexivity | split; constructor].
Qed.

Lemma parseSQL_ok content :
  Forall trimmed (fst (parseSQL content))
  /\ Forall encoded (fst (parseSQL content)).
Proof.
  unfold parseSQL. cbn [fst]. apply flush_ok, loop_ok, init_ok.
Qed.

Lemma encoded_valid s : encoded s -> ValidString s = true.
Proof.
  intros [rs E]. subst s. unfold ValidString.
  rewrite decode_string_of_runes. apply forallb_forall.
  intros c Hc. apply in_map_iff in Hc. destruct Hc as [r [E _]]. subst c.
  unfold chunk_of. cbn [fst snd]. apply negb_true_iff, andb_false_iff.
  unfold fix_rune, utf8.EncodeRune, utf8.ValidRune, utf8.MaxRune, utf8.RuneError.
  repeat match goal with
         | |- context [if ?b then _ else _] => destruct b eqn:?
         end; cbn [length negb Nat.eqb]; auto.
  - left. apply Z.eqb_neq. zlia.
  - exfalso. zlia.
Qed.

(** ** One lexical mode at a time *)

Lemma normal_flags st :
  normal st = true ->
  inString st = false /\ inBlockComment st = false /\ inLineComment st = false.
Proof.
  unfold normal. intros H.
  apply andb_true_iff in H. destruct H as [H H3].
  apply andb_true_iff in H. destruct H as [H1 H2].
  repeat split; apply negb_true_iff; assumption.
Qed.

Lemma mem_cons x c l : mem x (c :: l) = false -> c <> x /\ mem x l = false.
Proof.
  unfold mem. cbn [existsb]. intros H. apply orb_false_iff in H.
  destruct H as [H1 H2]. split; [|exact H2].
  apply Z.eqb_neq in H1. congruence.
Qed.

Lemma has_pair_cons a b c l :
  has_pair a b (c :: l) = false ->
  ((c =? a) && peek l b = false) /\ has_pair a b l = false.
Proof. cbn [has_pair]. intros H. apply orb_false_iff in H. exact H. Qed.

Lemma append_nil st : append st [] = st.
Proof. destruct st. unfold append. cbn. rewrite app_nil_r. reflexivity. Qed.

Lemma write_append st r : write st r = append st (utf8.EncodeRune r).
Proof. reflexivity. Qed.

Lemma append_append st a b : append (append st a) b = append st (a ++ b).
Proof. unfold append. cbn. rewrite app_assoc. reflexivity. Qed.

(** Line comment: everything up to the newline is dropped. *)
Lemma line_comment_body body : forall rest st,
  inLineComment st = true ->
  mem newline body = false ->
  loop (body ++ rest) st = loop rest st.
Proof.
  induction body as [|c body IH]; intros rest st L M; [reflexivity|].
  apply mem_cons in M. destruct M as [Hc M].
  cbn [app loop]. rewrite L.
  destruct (c =? newline) eqn:E; [apply Z.eqb_eq in E; congruence|].
  apply IH; assumption.
Qed.

Lemma line_comment_newline rest st :
  inLineComment st = true ->
  loop (newline :: rest) st
  = loop rest (write (set_inLineComment st false) newline).
Proof. intros L. cbn [loop]. rewrite L. reflexivity. Qed.

(** Block comment: everything up to the first [*/] is dropped. *)
Lemma block_comment_body body : forall rest st,
  inLineComment st = false ->
  inBlockComment st = true ->
  has_pair star slash body = false ->
  peek rest slash = false ->
  loop (body ++ rest) st = loop rest st.
Proof.
  induction body as [|c body IH]; intros rest st L B P R; [reflexivity|].
  apply has_pair_cons in P. destruct P as [Hc P].
  cbn [app loop]. rewrite L, B.
  assert (E : (c =? star) && peek (body ++ rest) slash = false).
  { destruct body as [|c1 body]; [|exact Hc].
    cbn [app]. rewrite R. apply andb_false_r. }
  rewrite E. apply IH; assumption.
Qed.

Lemma block_comment_close rest st :
  inLineComment st = false ->
  inBlockComment st = true ->
  loop (star :: slash :: rest) st = loop rest (set_inBlockComment st false).
Proof. intros L B. cbn [loop]. rewrite L, B. reflexivity. Qed.

(** String literal: everything up to the next quote is copied. *)
Lemma string_body body : forall rest st,
  inLineComment st = false ->
  inBlockComment st = false ->
  inString st = true ->
  mem quote body = false ->
  loop (body ++ rest) st = loop rest (append st (string_of_runes body)).
Proof.
  induction body as [|c body IH]; intros rest st L B S M.
  - cbn. rewrite append_nil. reflexivity.
  - apply mem_cons in M. destruct M as [Hc M].
    cbn [app loop]. rewrite L, B, S.
    destruct (c =? quote) eqn:E; [apply Z.eqb_eq in E; congruence|].
    rewrite IH by assumption.
    rewrite write_append, append_append. reflexivity.
Qed.

Lemma string_close rest st :
  inLineComment st = false ->
  inBlockComment st = false ->
  inString st = true ->
  peek rest quote = false ->
  loop (quote :: rest) st = loop rest (set_inString (write st quote) false).
Proof. intros L B S P. cbn [loop]. rewrite L, B, S, P. reflexivity. Qed.

Lemma string_escape rest st :
  inLineComment st = false ->
  inBlockComment st = false ->
  inString st = true ->
  loop (quote :: quote :: rest) st = loop rest (write (write st quote) quote).
Proof. intros L B S. cbn [loop]. rewrite L, B, S. reflexivity. Qed.

(** ** Well-formed strings *)

Lemma valid_roundtrip s :
  ValidString s = true -> string_of_runes (runes_of s) = s.
Proof.
  unfold ValidString, runes_of.
  remember (length s) as n eqn:Hn. revert s Hn.
  induction n as [n IH] using lt_wf_ind. intros s Hn V.
  destruct s as [|b s]; [reflexivity|].
  pose proof (decode_width (b :: s) ltac:(congruence)) as W.
  rewrite decode_step in V |- * by congruence.
  destruct (utf8.DecodeRuneInString (b :: s)) as [r w] eqn:D.
  cbn [fst snd] in *. cbn [forallb map fst snd] in V |- *.
  apply andb_true_iff in V. destruct V as [V1 V2].
  cbn [string_of_runes flat_map].
  fold (string_of_runes (map fst (decode (skipn w (b :: s))))).
  rewrite (IH (length (skipn w (b :: s)))); try reflexivity; try assumption.
  - rewrite (encode_decode _ _ _ D) by
        (try congruence; intros Q; inversion Q; subst r w;
         rewrite Z.eqb_refl in V1; rewrite length_firstn in V1;
         cbn in V1; discriminate).
    apply firstn_skipn.
  - rewrite length_skipn. lia.
Qed.

(** ** Text without strings and comments *)

Lemma plain_cons c t :
  plain (c :: t) = true ->
  c <> quote /\ (c =? dash) && peek t dash = false
  /\ (c =? slash) && peek t star = false /\ plain t = true.
Proof.
  unfold plain. cbn [mem existsb has_pair]. intros H.
  repeat match goal with
         | H : (_ && _)%bool = true |- _ =>
           apply andb_true_iff in H; destruct H
         | H : negb _ = true |- _ => apply negb_true_iff in H
         | H : (_ || _)%bool = false |- _ =>
           apply orb_false_iff in H; destruct H
         end.
  repeat split; try assumption.
  - intros ->. discriminate.
  - repeat (apply andb_true_iff; split); apply negb_true_iff; assumption.
Qed.

Lemma flush_terminate st :
  flush (terminate st) = flush st.
Proof. reflexivity. Qed.

Lemma nonblank_cons s ss :
  nonblank (s :: ss)
  = match strings.TrimSpace s with [] => [] | stmt => [stmt] end
    ++ nonblank ss.
Proof. reflexivity. Qed.

Lemma flush_spec st :
  flush st = statements st ++ nonblank [currentStmt st].
Proof.
  unfold flush, nonblank. cbn [flat_map].
  destruct (strings.TrimSpace (currentStmt st)).
  - cbn. rewrite app_nil_r. reflexivity.
  - rewrite app_nil_r. reflexivity.
Qed.

Lemma split_on_nonempty x l : split_on x l <> [].
Proof.
  destruct l as [|c t]; cbn [split_on]; [discriminate|].
  destruct (c =? x); [discriminate|]. destruct (split_on x t); discriminate.
Qed.

Lemma loop_plain rs : forall st,
  normal st = true ->
  plain rs = true ->
  flush (loop rs st)
  = statements st
    ++ nonblank (prefix_first (currentStmt st)
                              (map string_of_runes (split_on semicolon rs))).
Proof.
  induction rs as [|c rs IH]; intros st N P.
  - cbn [loop split_on map prefix_first string_of_runes flat_map].
    rewrite app_nil_r. apply flush_spec.
  - apply plain_cons in P. destruct P as [Hq [Hd [Hs P]]].
    destruct (normal_flags st N) as [S [B L]].
    cbn [loop]. rewrite L, B, S, Hd, Hs.
    destruct (c =? quote) eqn:Eq; [apply Z.eqb_eq in Eq; congruence|].
    cbn [split_on].
    destruct (c =? semicolon) eqn:E.
    + rewrite IH by (try assumption; unfold normal; cbn; rewrite S, B, L; reflexivity).
      cbn [map prefix_first]. cbn [terminate statements currentStmt].
      rewrite flush_spec, <- app_assoc. f_equal.
      rewrite app_nil_r.
      destruct (split_on semicolon rs) as [|s ss] eqn:M;
        [exfalso; exact (split_on_nonempty _ _ M)|].
      cbn [map prefix_first app]. unfold nonblank. cbn [flat_map].
      rewrite app_nil_r. reflexivity.
    + rewrite IH by (try assumption; unfold normal; cbn; rewrite S, B, L; reflexivity).
      cbn [write statements currentStmt]. f_equal. f_equal.
      unfold strings.WriteRune.
      destruct (split_on semicolon rs) as [|s ss] eqn:M;
        [exfalso; exact (split_on_nonempty _ _ M)|].
      cbn [map prefix_first string_of_runes flat_map].
      rewrite app_assoc. reflexivity.
Qed.

Lemma split_on_absent x l : mem x l = false -> split_on x l = [l].
Proof.
  induction l as [|c t IH]; intros M; [reflexivity|].
  apply mem_cons in M. destruct M as [Hc M].
  cbn [split_on]. destruct (c =? x) eqn:E; [apply Z.eqb_eq in E; congruence|].
  rewrite IH by exact M. reflexivity.
Qed.

Lemma split_on_length x l :
  length (split_on x l) = S (length (filter (Z.eqb x) l)).
Proof.
  induction l as [|c t IH]; [reflexivity|].
  cbn [split_on filter]. rewrite (Z.eqb_sym x c).
  destruct (c =? x); cbn [length].
  - rewrite IH. reflexivity.
  - destruct (split_on x t); cbn [length] in *; [discriminate | exact IH].
Qed.

Lemma nonblank_length segs :
  length (nonblank segs) = length (filter (fun s => negb (blank s)) segs).
Proof.
  induction segs as [|s ss IH]; [reflexivity|].
  rewrite nonblank_cons, length_app, IH. cbn [filter]. unfold blank.
  destruct (strings.TrimSpace s); reflexivity.
Qed.

Lemma filter_all {A} (f : A -> bool) l : forallb f l = true -> filter f l = l.
Proof.
  induction l as [|a l IH]; [reflexivity|]. cbn. intros H.
  apply andb_true_iff in H. destruct H as [Ha Hl].
  rewrite Ha, IH by exact Hl. reflexivity.
Qed.

Lemma nonblank_well_terminated segs :
  segs <> [] ->
  forallb (fun s => negb (blank s)) (removelast segs) = true ->
  blank (last segs []) = true ->
  length (nonblank segs) = pred (length segs).
Proof.
  intros Hne Hall Hlast.
  rewrite (app_removelast_last [] Hne) at 1.
  rewrite nonblank_length, filter_app, length_app, filter_all by exact Hall.
  cbn [filter]. rewrite Hlast. cbn.
  rewrite (app_removelast_last [] Hne) at 2. rewrite length_app. cbn. lia.
Qed.

Lemma parseSQL_plain t :
  plain (runes_of t) = true ->
  parseSQL t = (nonblank (segments t), None).
Proof.
  intros P. unfold parseSQL. f_equal.
  rewrite loop_plain by (exact P || reflexivity).
  cbn [init statements currentStmt app]. unfold segments.
  destruct (split_on semicolon (runes_of t)) as [|s ss] eqn:M;
    [exfalso; exact (split_on_nonempty _ _ M) | reflexivity].
Qed.

Lemma string_of_runes_cons r rs :
  string_of_runes (r :: rs) = utf8.EncodeRune r ++ string_of_runes rs.
Proof. reflexivity. Qed.

Lemma string_of_runes_nil : string_of_runes [] = [].
Proof. reflexivity. Qed.

(* two scanners built from the same pieces *)
Ltac same_scanner :=
  unfold write, append, set_inString, set_inBlockComment, set_inLineComment,
    strings.WriteRune;
  cbn [statements currentStmt inString inBlockComment inLineComment];
  f_equal;
  repeat (rewrite string_of_runes_app || rewrite string_of_runes_cons
          || rewrite string_of_runes_nil || rewrite <- app_assoc
          || rewrite app_nil_r);
  try reflexivity.

(** ** Fields and Join *)

Lemma Join_cons f l sep :
  strings.Join (f :: l) sep
  = f ++ match l with [] => [] | _ => sep ++ strings.Join l sep end.
Proof.
  destruct l; cbn [strings.Join]; [rewrite app_nil_r|]; reflexivity.
Qed.

Lemma fields_loop_some cs : forall f, strings.fields_loop cs (Some f) <> [].
Proof.
  induction cs as [|c t IH]; intros f; cbn [strings.fields_loop].
  - discriminate.
  - destruct (IsSpace (fst c)); [discriminate | apply IH].
Qed.

Lemma fields_all_space cs :
  all_space cs = true ->
  strings.fields_loop cs None = [] /\ spec_runs cs true = [].
Proof.
  induction cs as [|c t IH]; intros H; [split; reflexivity|].
  cbn [all_space forallb] in H. apply andb_true_iff in H. destruct H as [Hc Ht].
  cbn [strings.fields_loop spec_runs]. rewrite Hc. apply IH, Ht.
Qed.

Lemma fields_not_all_space cs :
  all_space cs = false ->
  strings.fields_loop cs None <> []
  /\ exists c r, spec_runs cs true = c :: r /\ IsSpace (fst c) = false.
Proof.
  induction cs as [|c t IH]; intros H; [discriminate|].
  cbn [all_space forallb] in H. cbn [strings.fields_loop spec_runs].
  destruct (IsSpace (fst c)) eqn:E.
  - apply IH. exact H.
  - split; [apply fields_loop_some|]. exists c, (spec_runs t false).
    split; [reflexivity | exact E].
Qed.

Lemma collapse_true_starts cs : starts_ok (spec_runs cs true) = true.
Proof.
  induction cs as [|c t IH]; [reflexivity|]. cbn [spec_runs].
  destruct (IsSpace (fst c)) eqn:E; [exact IH|]. cbn. rewrite E. reflexivity.
Qed.

Lemma trim_left_collapse cs :
  strings.trim_left (spec_runs cs false) = spec_runs cs true.
Proof.
  destruct cs as [|c t]; [reflexivity|]. cbn [spec_runs].
  destruct (IsSpace (fst c)) eqn:E.
  - cbn [strings.trim_left space_chunk fst]. 
    change (IsSpace 32) with true. cbn iota.
    apply trim_left_id, collapse_true_starts.
  - cbn [strings.trim_left]. rewrite E. reflexivity.
Qed.

Lemma trim_right_space_cons X :
  strings.trim_right (space_chunk :: X)
  = match strings.trim_right X with
    | [] => []
    | Y => space_chunk :: Y
    end.
Proof.
  unfold strings.trim_right. cbn [rev].
  destruct (strings.trim_left (rev X)) as [|y Y] eqn:E.
  - assert (A : forall l, strings.trim_left l = [] ->
                          strings.trim_left (l ++ [space_chunk]) = []).
    { induction l as [|a l IH]; cbn; [reflexivity|].
      destruct (IsSpace (fst a)); [exact IH | discriminate]. }
    rewrite A by exact E. reflexivity.
  - assert (A : forall l y Y, strings.trim_left l = y :: Y ->
                  strings.trim_left (l ++ [space_chunk]) = (y :: Y) ++ [space_chunk]).
    { induction l as [|a l IH]; cbn; [discriminate|]. intros y0 Y0.
      destruct (IsSpace (fst a)); [apply IH|]. intros Q. inversion Q. reflexivity. }
    rewrite (A _ _ _ E). rewrite rev_app_distr. cbn [rev app].
    destruct (rev Y ++ [y]) eqn:Q; [destruct (rev Y); discriminate | reflexivity].
Qed.

Lemma fields_join cs :
  (forall f, strings.Join (strings.fields_loop cs (Some f)) (str " ")
             = f ++ strings.bytes_of (strings.trim_right (spec_runs cs false)))
  /\ strings.Join (strings.fields_loop cs None) (str " ")
     = strings.bytes_of (strings.trim_right (spec_runs cs true)).
Proof.
  induction cs as [|c t [IHs IHn]].
  - split; [intros f; cbn; rewrite app_nil_r|]; reflexivity.
  - cbn [strings.fields_loop spec_runs].
    destruct (IsSpace (fst c)) eqn:E.
    + split; [|exact IHn]. intros f.
      rewrite Join_cons, trim_right_space_cons. f_equal.
      destruct (all_space t) eqn:A.
      * destruct (fields_all_space t A) as [F C]. rewrite F, C. reflexivity.
      * destruct (fields_not_all_space t A) as [F [c' [r [C Hc']]]].
        rewrite IHn.
        destruct (strings.fields_loop t None); [congruence|].
        rewrite C. rewrite trim_right_cons by exact Hc'. reflexivity.
    + split.
      * intros f. rewrite IHs, trim_right_cons by exact E.
        unfold strings.bytes_of. cbn [flat_map]. rewrite app_assoc. reflexivity.
      * rewrite IHs, trim_right_cons by exact E. reflexivity.
Qed.

(** [strings.Join(strings.Fields(s), " ")] is the collapsed, trimmed
    statement. *)
Lemma Join_Fields s :
  strings.Join (strings.Fields s) (str " ") = spec_collapse s.
Proof.
  unfold strings.Fields, spec_collapse, trim.
  rewrite (proj2 (fields_join (decode s))), trim_left_collapse. reflexivity.
Qed.

(** ** Truncation *)

Lemma int_sub_exact a b :
  int_min <= a - b <= int_max -> int_sub a b = a - b.
Proof.
  unfold int_sub, wrap_int, int_min, int_max. intros H.
  rewrite Z.mod_small; lia.
Qed.

Lemma len_app a b : len (a ++ b) = len a + len b.
Proof. unfold len. rewrite length_app. lia. Qed.

Lemma len_firstn n s : 0 <= n <= len s -> len (firstn (Z.to_nat n) s) = n.
Proof. unfold len. intros H. rewrite length_firstn. lia. Qed.

Lemma truncateStatement_eq s maxLen :
  3 <= maxLen <= int_max ->
  truncateStatement s maxLen = Some (spec_truncated (spec_collapse s) maxLen).
Proof.
  intros H. unfold truncateStatement, spec_truncated. rewrite Join_Fields.
  destruct (len (spec_collapse s) <=? maxLen) eqn:E; [reflexivity|].
  apply Z.leb_gt in E.
  rewrite int_sub_exact by (unfold int_min, int_max in *; lia).
  unfold slice_to.
  destruct ((0 <=? maxLen - 3) && (maxLen - 3 <=? len (spec_collapse s)))%bool
    eqn:G; [reflexivity|].
  apply andb_false_iff in G. destruct G as [G|G];
    [apply Z.leb_gt in G | apply Z.leb_gt in G]; lia.
Qed.

Lemma truncated_len c maxLen :
  3 <= maxLen ->
  len (spec_truncated c maxLen) <= maxLen
  /\ (maxLen < len c -> len (spec_truncated c maxLen) = maxLen).
Proof.
  intros H. unfold spec_truncated.
  destruct (len c <=? maxLen) eqn:E.
  - apply Z.leb_le in E. lia.
  - apply Z.leb_gt in E. rewrite len_app, len_firstn by lia.
    change (len (str "...")) with 3. lia.
Qed.

(** ** More on the scanning loop *)

Lemma skip_ind (P : list Z -> Prop) :
  P [] ->
  (forall c rest, P rest -> P (skip rest) -> P (c :: rest)) ->
  forall l, P l.
Proof.
  intros P0 Pc l. remember (length l) as n eqn:Hn. revert l Hn.
  induction n as [n IH] using lt_wf_ind. intros l Hn.
  destruct l as [|c rest]; [exact P0|].
  cbn [length] in Hn. pose proof (skip_length rest).
  apply Pc.
  - apply (IH (length rest)); [lia | reflexivity].
  - apply (IH (length (skip rest))); [lia | reflexivity].
Qed.

Lemma terminators_cons c l :
  terminators (c :: l)
  = ((if (c =? semicolon)%Z then 1 else 0) + terminators l)%nat.
Proof.
  unfold terminators. cbn [filter]. rewrite (Z.eqb_sym semicolon c).
  destruct (c =? semicolon); reflexivity.
Qed.

Lemma terminators_skip l : (terminators (skip l) <= terminators l)%nat.
Proof.
  destruct l as [|c l]; [cbn; lia|]. cbn [skip]. rewrite terminators_cons. lia.
Qed.

Lemma flush_length st :
  (length (flush st) <= S (length (statements st)))%nat.
Proof.
  unfold flush. destruct (strings.TrimSpace (currentStmt st));
    [lia | rewrite length_app; cbn; lia].
Qed.

Lemma loop_count rs : forall st,
  (length (statements (loop rs st))
   <= length (statements st) + terminators rs)%nat.
Proof.
  induction rs as [|c rest IHr IHs] using skip_ind; intros st; [cbn; lia|].
  pose proof (terminators_skip rest) as TS.
  rewrite terminators_cons. cbn [loop].
  repeat match goal with
         | |- context [if ?b then _ else _] => destruct b eqn:?
         end;
    first [ etransitivity; [apply IHr|] | etransitivity; [apply IHs|] ];
    cbn [statements write set_inString set_inBlockComment set_inLineComment
         terminate]; try lia.
  pose proof (flush_length st). lia.
Qed.

(** Statements already found are not looked at again. *)
Lemma loop_prepend pre rs : forall st,
  loop rs (prepend pre st) = prepend pre (loop rs st).
Proof.
  induction rs as [|c rest IHr IHs] using skip_ind; intros st; [reflexivity|].
  assert (F : forall st, flush (prepend pre st) = pre ++ flush st).
  { intros s. unfold flush, prepend. cbn [currentStmt statements].
    destruct (strings.TrimSpace (currentStmt s)); [reflexivity|].
    symmetry. apply app_assoc. }
  cbn [loop prepend inLineComment inBlockComment inString].
  repeat match goal with
         | |- context [if ?b then _ else _] => destruct b
         end;
    first [rewrite <- IHr | rewrite <- IHs]; f_equal;
    unfold prepend, write, terminate, set_inString, set_inBlockComment,
      set_inLineComment;
    cbn [statements currentStmt inString inBlockComment inLineComment];
    try reflexivity.
  f_equal. apply (F st).
Qed.

Lemma peek_inert c rb x :
  inert c = true ->
  x = quote \/ x = dash \/ x = star \/ x = slash ->
  peek (c :: rb) x = false.
Proof.
  unfold inert. intros I X. cbn [peek].
  repeat (apply andb_true_iff in I; destruct I as [I ?]).
  repeat match goal with
         | H : negb _ = true |- _ => apply negb_true_iff in H
         end.
  destruct X as [-> | [-> | [-> | ->]]]; assumption.
Qed.

Lemma peek_app rest tail x : rest <> [] -> peek (rest ++ tail) x = peek rest x.
Proof. destruct rest; [congruence | reflexivity]. Qed.

Lemma skip_app rest tail : rest <> [] -> skip (rest ++ tail) = skip rest ++ tail.
Proof. destruct rest; [congruence | reflexivity]. Qed.

Lemma hd_app rest tail : rest <> [] -> hd 0 (rest ++ tail) = hd 0 rest.
Proof. destruct rest; [congruence | reflexivity]. Qed.

(** An inert rune lets the scanner finish what comes before it. *)
Lemma loop_app_inert c rb ra : forall st,
  inert c = true ->
  loop (ra ++ c :: rb) st = loop (c :: rb) (loop ra st).
Proof.
  induction ra as [|a rest IHr IHs] using skip_ind; intros st I;
    [reflexivity|].
  assert (Pk : forall x, x = quote \/ x = dash \/ x = star \/ x = slash ->
                         peek (c :: rb) x = false)
    by (intros x X; apply peek_inert; assumption).
  remember (c :: rb) as tail eqn:T.
  destruct rest as [|a1 rest'] eqn:R.
  - cbn [app loop skip]. cbn [peek].
    rewrite !Pk by auto. rewrite !andb_false_r.
    repeat match goal with
           | |- context [if ?b then _ else _] => destruct b
           end; reflexivity.
  - assert (Hne : rest <> []) by (subst rest; discriminate).
    rewrite <- R in *. clear R.
    change ((a :: rest) ++ tail) with (a :: rest ++ tail).
    cbn [loop].
    rewrite !peek_app, !skip_app, !hd_app by exact Hne.
    repeat match goal with
           | |- context [if ?b then _ else _] => destruct b
           end; first [apply IHr | apply IHs]; exact I.
Qed.

Lemma decode_encoded_app rs s :
  decode (string_of_runes rs ++ s) = map chunk_of rs ++ decode s.
Proof.
  induction rs as [|r rs IH]; [reflexivity|].
  rewrite string_of_runes_cons, <- app_assoc, decode_encode_app.
  cbn [map app]. f_equal. exact IH.
Qed.

Lemma runes_of_app_valid a s :
  ValidString a = true -> runes_of (a ++ s) = runes_of a ++ runes_of s.
Proof.
  intros V. rewrite <- (valid_roundtrip a V) at 1.
  unfold runes_of at 1. rewrite decode_encoded_app, map_app.
  f_equal. unfold runes_of at 2.
  rewrite <- (valid_roundtrip a V) at 2.
  rewrite decode_string_of_runes. reflexivity.
Qed.

Lemma runes_of_semicolon b :
  runes_of (str ";" ++ b) = semicolon :: runes_of b.
Proof.
  change (str ";") with (utf8.EncodeRune semicolon).
  unfold runes_of. rewrite decode_encode_app. reflexivity.
Qed.

Lemma terminate_normal st :
  normal st = true -> terminate st = prepend (flush st) init.
Proof.
  intros N. destruct (normal_flags st N) as [S [B L]].
  unfold terminate, prepend. cbn [init statements currentStmt inString
    inBlockComment inLineComment]. rewrite S, B, L, app_nil_r. reflexivity.
Qed.

Lemma flush_prepend pre st : flush (prepend pre st) = pre ++ flush st.
Proof.
  unfold flush, prepend. cbn [currentStmt statements].
  destruct (strings.TrimSpace (currentStmt st)); [reflexivity|].
  symmetry. apply app_assoc.
Qed.

(** ** Terminators read in normal mode *)

Lemma cuts_absent x l : mem x l = false -> cuts x l = [].
Proof.
  induction l as [|c t IH]; intros M; [reflexivity|].
  apply mem_cons in M. destruct M as [Hc M].
  cbn [cuts]. rewrite IH by exact M.
  destruct (c =? x) eqn:E; [apply Z.eqb_eq in E; congruence | reflexivity].
Qed.

Lemma cuts_app x a b :
  cuts x (a ++ x :: b)
  = cuts x a ++ a :: map (fun p => a ++ x :: p) (cuts x b).
Proof.
  induction a as [|c a IH].
  - cbn [app cuts]. rewrite Z.eqb_refl. cbn [app map].
    f_equal.
  - cbn [app cuts]. rewrite IH, map_app. cbn [map]. rewrite map_map.
    rewrite <- app_assoc. reflexivity.
Qed.

Lemma cuts_length l : length (cuts semicolon l) = terminators l.
Proof.
  induction l as [|c t IH]; [reflexivity|].
  rewrite terminators_cons. cbn [cuts].
  rewrite length_app, length_map, IH.
  destruct (c =? semicolon); reflexivity.
Qed.

Lemma first_terminator l :
  mem semicolon l = true ->
  exists a b, l = a ++ semicolon :: b /\ mem semicolon a = false.
Proof.
  induction l as [|c t IH]; [discriminate|].
  unfold mem. cbn [existsb]. fold (mem semicolon t).
  destruct (semicolon =? c) eqn:E.
  - intros _. apply Z.eqb_eq in E. subst c. exists [], t. split; reflexivity.
  - cbn [orb]. intros M. destruct (IH M) as [a [b [-> Ma]]].
    exists (c :: a), b. split; [reflexivity|].
    unfold mem. cbn [existsb]. rewrite E. exact Ma.
Qed.

Lemma terminators_absent l : mem semicolon l = false -> terminators l = 0%nat.
Proof. intros M. rewrite <- cuts_length, cuts_absent by exact M. reflexivity. Qed.

(** Without a terminator the scanner finds no statement. *)
Lemma loop_no_terminator l :
  mem semicolon l = false -> flush (loop l init) = nonblank [pending l].
Proof.
  intros M. rewrite flush_spec.
  pose proof (loop_count l init) as C.
  rewrite terminators_absent in C by exact M. cbn in C.
  destruct (statements (loop l init)); [reflexivity | cbn in C; lia].
Qed.

(** A terminator read in normal mode closes the statement and the scan
    starts afresh. *)
Lemma loop_past_terminator a b :
  normal (loop a init) = true ->
  loop (a ++ semicolon :: b) init = prepend (flush (loop a init)) (loop b init).
Proof.
  intros N. rewrite loop_app_inert by reflexivity.
  destruct (normal_flags _ N) as [S [B L]].
  cbn [loop]. rewrite L, B, S.
  cbn [Z.eqb semicolon quote dash slash Pos.eqb andb].
  rewrite terminate_normal by exact N. apply loop_prepend.
Qed.

Lemma unsuppressed_split a b :
  unsuppressed (a ++ semicolon :: b) = true ->
  normal (loop a init) = true /\ unsuppressed b = true.
Proof.
  unfold unsuppressed. rewrite cuts_app, forallb_app. cbn [forallb].
  intros H. apply andb_true_iff in H. destruct H as [_ H].
  apply andb_true_iff in H. destruct H as [N H]. split; [exact N|].
  rewrite forallb_forall in *. intros p Hp.
  specialize (H (a ++ semicolon :: p) (in_map _ _ _ Hp)).
  rewrite loop_past_terminator in H by exact N. exact H.
Qed.

Lemma pending_past_terminator a b :
  normal (loop a init) = true ->
  pending (a ++ semicolon :: b) = pending b.
Proof.
  intros N. unfold pending. rewrite loop_past_terminator by exact N.
  reflexivity.
Qed.

(** The statements are what the builder holds at each terminator and at the
    end of the text, in that order. *)
Lemma loop_unsuppressed l :
  unsuppressed l = true ->
  flush (loop l init)
  = nonblank (map pending (cuts semicolon l) ++ [pending l]).
Proof.
  remember (length l) as n eqn:Hn. revert l Hn.
  induction n as [n IH] using lt_wf_ind. intros l Hn U.
  destruct (mem semicolon l) eqn:M.
  - destruct (first_terminator l M) as [a [b [-> Ma]]].
    destruct (unsuppressed_split a b U) as [N Ub].
    rewrite loop_past_terminator, flush_prepend by exact N.
    rewrite (loop_no_terminator a) by exact Ma.
    rewrite (IH (length b)); [|rewrite Hn, length_app; cbn; lia|reflexivity|exact Ub].
    rewrite cuts_app, (cuts_absent semicolon a) by exact Ma.
    cbn [app map]. rewrite map_map.
    rewrite (map_ext (fun p => pending (a ++ semicolon :: p)) pending)
      by (intros p; apply pending_past_terminator, N).
    rewrite pending_past_terminator by exact N.
    unfold nonblank. cbn [flat_map]. rewrite app_nil_r. reflexivity.
  - rewrite cuts_absent by exact M. apply loop_no_terminator, M.
Qed.

Lemma filter_map_length {A B} (f : B -> bool) (g : A -> B) l :
  length (filter f (map g l)) = length (filter (fun a => f (g a)) l).
Proof.
  induction l as [|a l IH]; [reflexivity|].
  cbn [map filter]. destruct (f (g a)); cbn [length]; rewrite IH; reflexivity.
Qed.

(** * The claims *)

(** C1. Inside a single-quoted string literal every character up to the
    closing quote is copied to the statement as it is; terminators and
    comment openers are not looked at.  A doubled quote is copied and the
    literal continues; a single quote ends it.  The three inputs of the
    specification give the statements it lists. *)
Theorem string_literal_is_verbatim st body rest :
  normal st = true ->
  mem quote body = false ->
  loop (quote :: body ++ quote :: rest) st
  = (if peek rest quote
     then loop (skip rest)
               (append (set_inString st true)
                       (string_of_runes (quote :: body ++ [quote; quote])))
     else loop rest (append st (string_of_runes (quote :: body ++ [quote]))))
  /\ parseSQL (str "SELECT 'a;b;c';") = ([str "SELECT 'a;b;c'"], None)
  /\ parseSQL (str "SELECT 'it''s working';")
     = ([str "SELECT 'it''s working'"], None)
  /\ parseSQL (str "SELECT '-- not a comment'; SELECT '/* also not */';")
     = ([str "SELECT '-- not a comment'"; str "SELECT '/* also not */'"],
        None).
Proof.
  intros N M. split; [|repeat split; vm_compute; reflexivity].
  destruct (normal_flags st N) as [S [B L]].
  change (quote :: body ++ quote :: rest)
    with ([quote] ++ body ++ quote :: rest).
  cbn [app loop]. rewrite L, B, S. cbn [Z.eqb quote Pos.eqb].
  rewrite string_body by (cbn; first [assumption | reflexivity]).
  cbn [loop]. cbn [append write set_inString inLineComment inBlockComment inString].
  rewrite L, B. cbn [Z.eqb quote Pos.eqb].
  destruct st as [stm cur s b l]. cbn in S, B, L. subst s b l.
  cbn [statements currentStmt inString inBlockComment inLineComment].
  destruct (peek rest quote) eqn:P.
  - destruct rest as [|c1 rest]; [discriminate|]. cbn in P.
    apply Z.eqb_eq in P. subst c1. cbn [hd skip].
    f_equal. same_scanner.
  - f_equal. same_scanner.
Qed.

Lemma string_literal_is_verbatim_witness :
  loop (quote :: [semicolon; dash; dash] ++ quote :: [semicolon]) init
  = (if peek [semicolon] quote
     then loop (skip [semicolon])
               (append (set_inString init true)
                       (string_of_runes
                          (quote :: [semicolon; dash; dash] ++ [quote; quote])))
     else loop [semicolon]
               (append init
                       (string_of_runes
                          (quote :: [semicolon; dash; dash] ++ [quote]))))
  /\ parseSQL (str "SELECT 'a;b;c';") = ([str "SELECT 'a;b;c'"], None)
  /\ parseSQL (str "SELECT 'it''s working';")
     = ([str "SELECT 'it''s working'"], None)
  /\ parseSQL (str "SELECT '-- not a comment'; SELECT '/* also not */';")
     = ([str "SELECT '-- not a comment'"; str "SELECT '/* also not */'"],
        None).
Proof.
  apply (string_literal_is_verbatim init [semicolon; dash; dash] [semicolon]);
    reflexivity.
Defined.

(** C2. A text with no terminator, no comment opener and no quote is one
    statement: [parseSQL] returns the text trimmed, or nothing when the
    text is blank.  The text is well-formed UTF-8, a sequence of
    characters. *)
Theorem plain_text_single_statement t :
  ValidString t = true ->
  plain (runes_of t) = true ->
  mem semicolon (runes_of t) = false ->
  parseSQL t
  = (match strings.TrimSpace t with [] => [] | stmt => [stmt] end, None).
Proof.
  intros V P M. rewrite parseSQL_plain by exact P.
  unfold segments. rewrite split_on_absent by exact M.
  cbn [map]. rewrite valid_roundtrip by exact V.
  unfold nonblank. cbn [flat_map]. rewrite app_nil_r. reflexivity.
Qed.

Lemma plain_text_single_statement_witness :
  parseSQL (str "  CREATE TABLE t (id INTEGER)  ")
  = (match strings.TrimSpace (str "  CREATE TABLE t (id INTEGER)  ") with
     | [] => []
     | stmt => [stmt]
     end, None).
Proof.
  apply (plain_text_single_statement (str "  CREATE TABLE t (id INTEGER)  "));
    vm_compute; reflexivity.
Defined.

(** C3. The trailing terminator is optional and the statements come out in
    the order of the text.  When no terminator is suppressed by string or
    comment context, the statements are what the builder holds at each
    terminator and at the end of the text, in that order, each trimmed and
    the blank ones dropped; there are as many as there are terminators
    closing a statement that is not blank, plus one when the text after the
    last terminator is not blank; and as many as terminators when every
    terminator closes a statement that is not blank and only white space and
    comments follow the last one.  On text without strings and comments the
    statements are the non-blank pieces between terminators. *)
Theorem terminator_split_order_count t :
  parseSQL (str "SELECT 1;") = ([str "SELECT 1"], None)
  /\ parseSQL (str "SELECT 1") = ([str "SELECT 1"], None)
  /\ parseSQL (str "SELECT 1; SELECT 2; SELECT 3;")
     = ([str "SELECT 1"; str "SELECT 2"; str "SELECT 3"], None)
  /\ length (fst (parseSQL (str "SELECT 1; SELECT 2; SELECT 3;")))
     = terminators (runes_of (str "SELECT 1; SELECT 2; SELECT 3;"))
  /\ (unsuppressed (runes_of t) = true ->
      parseSQL t
      = (nonblank (map pending (cuts semicolon (runes_of t))
                   ++ [pending (runes_of t)]), None)
      /\ length (fst (parseSQL t))
         = (length (filter (fun pre => negb (blank (pending pre)))
                           (cuts semicolon (runes_of t)))
            + (if blank (pending (runes_of t)) then 0 else 1))%nat
      /\ (closes_statements (runes_of t) = true ->
          length (fst (parseSQL t)) = terminators (runes_of t)))
  /\ (plain (runes_of t) = true ->
      parseSQL t = (nonblank (segments t), None)
      /\ (well_terminated t = true ->
          length (fst (parseSQL t)) = terminators (runes_of t))).
Proof.
  do 4 (split; [vm_compute; reflexivity|]).
  split.
  - intros U.
    assert (E : parseSQL t
                = (nonblank (map pending (cuts semicolon (runes_of t))
                             ++ [pending (runes_of t)]), None))
      by (unfold parseSQL; rewrite loop_unsuppressed by exact U; reflexivity).
    assert (L : length (fst (parseSQL t))
                = (length (filter (fun pre => negb (blank (pending pre)))
                                  (cuts semicolon (runes_of t)))
                   + (if blank (pending (runes_of t)) then 0 else 1))%nat).
    { rewrite E. cbn [fst].
      rewrite nonblank_length, filter_app, length_app.
      rewrite filter_map_length.
      cbn [filter]. destruct (blank (pending (runes_of t))); reflexivity. }
    split; [exact E | split; [exact L|]].
    intros C. unfold closes_statements in C.
    apply andb_true_iff in C. destruct C as [C1 C2].
    rewrite L, C2, filter_all, cuts_length by exact C1. lia.
  - intros P. split; [apply parseSQL_plain, P|].
    intros W. rewrite parseSQL_plain by exact P. cbn [fst].
    unfold well_terminated in W. apply andb_true_iff in W.
    destruct W as [W1 W2].
    rewrite nonblank_well_terminated; try assumption.
    + unfold segments, terminators. rewrite length_map, split_on_length.
      reflexivity.
    + unfold segments. intros E. apply map_eq_nil in E.
      exact (split_on_nonempty _ _ E).
Qed.

Lemma terminator_split_order_count_witness :
  parseSQL (str "SELECT 'a'; SELECT 2 /* c */;")
  = ([str "SELECT 'a'"; str "SELECT 2"], None)
  /\ length (fst (parseSQL (str "SELECT 'a'; SELECT 2 /* c */;")))
     = terminators (runes_of (str "SELECT 'a'; SELECT 2 /* c */;"))
  /\ parseSQL (str "INSTALL httpfs; LOAD httpfs;")
     = (nonblank (segments (str "INSTALL httpfs; LOAD httpfs;")), None)
  /\ length (fst (parseSQL (str "INSTALL httpfs; LOAD httpfs;")))
     = terminators (runes_of (str "INSTALL httpfs; LOAD httpfs;")).
Proof.
  destruct (terminator_split_order_count (str "SELECT 'a'; SELECT 2 /* c */;"))
    as [_ [_ [_ [_ [H _]]]]].
  destruct H as [H1 [_ H3]]; [vm_compute; reflexivity|].
  destruct (terminator_split_order_count (str "INSTALL httpfs; LOAD httpfs;"))
    as [_ [_ [_ [_ [_ K]]]]].
  destruct K as [K1 K2]; [vm_compute; reflexivity|].
  split; [rewrite H1; vm_compute; reflexivity|].
  split; [apply H3; vm_compute; reflexivity|].
  split; [exact K1 | apply K2; vm_compute; reflexivity].
Defined.

(** C3 as stated fails: a terminator that closes nothing gives no statement,
    and text after the last terminator gives one.  Neither text below has a
    string literal or a comment, so no terminator is suppressed, yet the
    first has one statement for two terminators and the second, the
    specification's own, one statement for none. *)
Lemma terminator_count_is_not_statement_count :
  plain (runes_of (str "SELECT 1;;")) = true
  /\ unsuppressed (runes_of (str "SELECT 1;;")) = true
  /\ parseSQL (str "SELECT 1;;") = ([str "SELECT 1"], None)
  /\ terminators (runes_of (str "SELECT 1;;")) = 2%nat
  /\ parseSQL (str "SELECT 1") = ([str "SELECT 1"], None)
  /\ terminators (runes_of (str "SELECT 1")) = 0%nat
  /\ ~ (forall t, unsuppressed (runes_of t) = true ->
                  length (fst (parseSQL t)) = terminators (runes_of t)).
Proof.
  do 6 (split; [vm_compute; reflexivity|]).
  intros H. specialize (H (str "SELECT 1;;") eq_refl).
  vm_compute in H. discriminate.
Qed.

(** C4. A block comment is removed and nothing is put in its place: the
    scanner after the closing [*/] is the scanner before the opening [/*].
    The example keeps the two spaces that surrounded the comment. *)
Theorem block_comment_excised st body rest :
  normal st = true ->
  has_pair star slash body = false ->
  loop (slash :: star :: body ++ star :: slash :: rest) st = loop rest st
  /\ parseSQL (str "SELECT /* comment */ 1;") = ([str "SELECT  1"], None).
Proof.
  intros N P. split; [|vm_compute; reflexivity].
  destruct (normal_flags st N) as [S [B L]].
  cbn [loop]. rewrite L, B, S. cbn [Z.eqb slash quote dash star peek Pos.eqb andb skip].
  rewrite block_comment_body by (cbn; first [assumption | reflexivity]).
  rewrite block_comment_close by (cbn; first [assumption | reflexivity]).
  f_equal. destruct st; cbn in *; subst; reflexivity.
Qed.

Lemma block_comment_excised_witness :
  loop (slash :: star :: [semicolon; star; star] ++ star :: slash :: [dash])
       init
  = loop [dash] init
  /\ parseSQL (str "SELECT /* comment */ 1;") = ([str "SELECT  1"], None).
Proof.
  apply (block_comment_excised init [semicolon; star; star] [dash]);
    reflexivity.
Defined.

(** C5. A line comment is dropped up to its newline; the newline is written
    to the statement and the scanner is back in normal mode.  At the end of
    the input the comment just ends and nothing is written. *)
Theorem line_comment_discarded st body rest :
  normal st = true ->
  mem newline body = false ->
  loop (dash :: dash :: body ++ newline :: rest) st
  = loop rest (write st newline)
  /\ loop (body ++ newline :: rest) (set_inLineComment st true)
     = loop rest (write st newline)
  /\ normal (write st newline) = true
  /\ currentStmt (write st newline) = currentStmt st ++ [x0a]
  /\ loop (dash :: dash :: body) st = set_inLineComment st true
  /\ parseSQL (str "-- comment only") = ([], None).
Proof.
  intros N M.
  destruct (normal_flags st N) as [S [B L]].
  assert (E : loop (body ++ newline :: rest) (set_inLineComment st true)
              = loop rest (write st newline)).
  { rewrite line_comment_body by (cbn; first [assumption | reflexivity]).
    rewrite line_comment_newline by reflexivity.
    f_equal. destruct st; cbn in *; subst; reflexivity. }
  split; [|split; [exact E | split; [exact N | split; [reflexivity | split]]]].
  - cbn [loop]. rewrite L, B, S.
    cbn [Z.eqb slash quote dash star peek Pos.eqb andb skip]. exact E.
  - cbn [loop]. rewrite L, B, S.
    cbn [Z.eqb slash quote dash star peek Pos.eqb andb skip].
    rewrite <- (app_nil_r body).
    rewrite line_comment_body by (cbn; first [assumption | reflexivity]).
    reflexivity.
  - vm_compute; reflexivity.
Qed.

Lemma line_comment_discarded_witness :
  loop (dash :: dash :: [semicolon; quote] ++ newline :: [star]) init
  = loop [star] (write init newline)
  /\ loop (dash :: dash :: [semicolon; quote]) init
     = set_inLineComment init true.
Proof.
  destruct (line_comment_discarded init [semicolon; quote] [star])
    as [H1 [_ [_ [_ [H2 _]]]]]; [reflexivity | reflexivity |].
  split; [exact H1 | exact H2].
Defined.

(** C6. Every statement [parseSQL] returns, whether it was closed by a
    terminator or by the end of the input, is non-empty, is left unchanged
    by [strings.TrimSpace], and neither begins nor ends with white space. *)
Theorem statements_trimmed_nonempty content :
  Forall trimmed (fst (parseSQL content)).
Proof. apply parseSQL_ok. Qed.

(** C7. [parseSQL] returns for every input and its error is always [nil].
    A string literal, block comment or line comment that is not closed runs
    to the end of the input: the scanner stops in that mode, an open
    literal with its text in the builder, an open comment with nothing
    written, and the statements are returned as usual. *)
Theorem parseSQL_total_no_error content :
  snd (parseSQL content) = None
  /\ (exists stmts, parseSQL content = (stmts, None))
  /\ (forall st body,
        normal st = true -> mem quote body = false ->
        loop (quote :: body) st
        = append (set_inString st true) (string_of_runes (quote :: body)))
  /\ (forall st body,
        normal st = true -> has_pair star slash body = false ->
        loop (slash :: star :: body) st = set_inBlockComment st true)
  /\ (forall st body,
        normal st = true -> mem newline body = false ->
        loop (dash :: dash :: body) st = set_inLineComment st true)
  /\ parseSQL (str "SELECT 'abc; SELECT 2")
     = ([str "SELECT 'abc; SELECT 2"], None)
  /\ parseSQL (str "SELECT 1 /* abc; SELECT 2") = ([str "SELECT 1"], None)
  /\ parseSQL (str "SELECT 1 -- abc; SELECT 2") = ([str "SELECT 1"], None).
Proof.
  split; [reflexivity|].
  split; [eexists; reflexivity|].
  split; [|split; [|split; [|repeat split; vm_compute; reflexivity]]];
    intros st body N H; destruct (normal_flags st N) as [S [B L]];
    cbn [loop]; rewrite L, B, S;
    cbn [Z.eqb slash quote dash star peek Pos.eqb andb skip].
  - rewrite <- (app_nil_r body) at 1.
    rewrite string_body by (cbn; first [assumption | reflexivity]).
    cbn [loop]. same_scanner.
  - rewrite <- (app_nil_r body).
    rewrite block_comment_body by (cbn; first [assumption | reflexivity]).
    reflexivity.
  - rewrite <- (app_nil_r body).
    rewrite line_comment_body by (cbn; first [assumption | reflexivity]).
    reflexivity.
Qed.

Lemma parseSQL_total_no_error_witness :
  snd (parseSQL [xff; x27; x2f; x2a]) = None
  /\ loop (quote :: [semicolon; dash]) init
     = append (set_inString init true)
              (string_of_runes (quote :: [semicolon; dash]))
  /\ loop (slash :: star :: [semicolon; star]) init
     = set_inBlockComment init true
  /\ loop (dash :: dash :: [semicolon; dash]) init
     = set_inLineComment init true.
Proof.
  destruct (parseSQL_total_no_error [xff; x27; x2f; x2a])
    as [H0 [_ [H1 [H2 [H3 _]]]]].
  split; [exact H0|].
  split; [apply H1; reflexivity|].
  split; [apply H2; reflexivity | apply H3; reflexivity].
Defined.

(** C8. The first step is as stated: [strings.Join(strings.Fields(stmt), " ")]
    is the statement with every run of white space collapsed to one space
    and both ends trimmed.  The bound is not kept in characters: the code
    compares [len(stmt)], a number of bytes, with [maxLen] and cuts at byte
    [maxLen - 3].  With bound 50, as in the error message, the 58
    characters of the first statement below are not cut to their first 47
    followed by three dots, but to 46 and the first byte of the next.  With
    bound 100, as in the debug message, the 100 characters of the second
    are not returned unchanged: they take 107 bytes and are cut. *)
Theorem truncateStatement_counts_bytes :
  (forall s, strings.Join (strings.Fields s) (str " ") = spec_collapse s)
  /\ ValidString umlaut_statement = true
  /\ spec_collapse umlaut_statement = umlaut_statement
  /\ length (runes_of umlaut_statement) = 58%nat
  /\ len umlaut_statement = 60
  /\ string_of_runes (firstn 47 (runes_of umlaut_statement)) ++ str "..."
     = str "INSERT INTO places (name, state) VALUES ('Malmö..."
  /\ truncateStatement umlaut_statement 50
     = Some (str "INSERT INTO places (name, state) VALUES ('Malm"
             ++ [xc3] ++ str "...")
  /\ truncateStatement umlaut_statement 50
     <> Some (string_of_runes (firstn 47 (runes_of umlaut_statement))
              ++ str "...")
  /\ ValidString towns_statement = true
  /\ spec_collapse towns_statement = towns_statement
  /\ length (runes_of towns_statement) = 100%nat
  /\ len towns_statement = 107
  /\ truncateStatement towns_statement 100
     = Some (str "INSERT INTO towns (name, county) VALUES ('Malmö', 'Skåne län'), ('Göteborg', 'Västra Götala...")
  /\ truncateStatement towns_statement 100 <> Some towns_statement.
Proof.
  split; [exact Join_Fields|].
  repeat split; try (vm_compute; reflexivity);
    intros E; vm_compute in E; discriminate.
Qed.

(** C9.  The scan of [parseSQL] works on characters: every statement it
    returns is well-formed UTF-8, whatever the input.  [truncateStatement]
    does not: it cuts at byte [maxLen - 3].  The statement below is
    well-formed and is what [parseSQL] returns for it; the call made for the
    error message, with bound 50, cuts the two-byte character [ö] in two and
    returns a string that is not well-formed. *)
Theorem truncateStatement_splits_character :
  (forall content,
      Forall (fun s => ValidString s = true) (fst (parseSQL content)))
  /\ ValidString umlaut_statement = true
  /\ parseSQL (umlaut_statement ++ str ";") = ([umlaut_statement], None)
  /\ truncateStatement umlaut_statement 50
     = Some (str "INSERT INTO places (name, state) VALUES ('Malm"
             ++ [xc3] ++ str "...")
  /\ ValidString (str "INSERT INTO places (name, state) VALUES ('Malm"
                  ++ [xc3] ++ str "...") = false.
Proof.
  split.
  - intros content. destruct (parseSQL_ok content) as [_ H].
    eapply Forall_impl; [|exact H]. intros s. apply encoded_valid.
  - repeat split; vm_compute; reflexivity.
Qed.

(** C10. With a bound of at least 4 [truncateStatement] always returns.
    The slice is taken only when the collapsed statement is longer than
    [maxLen] bytes, and then its end [maxLen - 3] is at least 0 and less
    than the length of the string. *)
Theorem truncateStatement_slice_in_range s maxLen :
  4 <= maxLen <= int_max ->
  (exists r, truncateStatement s maxLen = Some r)
  /\ (len (strings.Join (strings.Fields s) (str " ")) <= maxLen ->
      truncateStatement s maxLen
      = Some (strings.Join (strings.Fields s) (str " ")))
  /\ (maxLen < len (strings.Join (strings.Fields s) (str " ")) ->
      0 <= int_sub maxLen 3
           < len (strings.Join (strings.Fields s) (str " "))
      /\ slice_to (strings.Join (strings.Fields s) (str " "))
                  (int_sub maxLen 3)
         = Some (firstn (Z.to_nat (maxLen - 3))
                        (strings.Join (strings.Fields s) (str " ")))).
Proof.
  intros H.
  assert (I : int_sub maxLen 3 = maxLen - 3)
    by (apply int_sub_exact; unfold int_min, int_max in *; lia).
  split; [|split].
  - rewrite truncateStatement_eq by lia. eexists. reflexivity.
  - intros L. unfold truncateStatement.
    apply Z.leb_le in L. rewrite L. reflexivity.
  - intros L. rewrite I. split; [lia|].
    unfold slice_to.
    destruct ((0 <=? maxLen - 3)
              && (maxLen - 3 <=? len (strings.Join (strings.Fields s) (str " "))))%bool
      eqn:G; [reflexivity|].
    apply andb_false_iff in G. destruct G as [G|G]; apply Z.leb_gt in G; lia.
Qed.

Lemma truncateStatement_slice_in_range_witness :
  (exists r, truncateStatement umlaut_statement 50 = Some r)
  /\ 0 <= int_sub 50 3
          < len (strings.Join (strings.Fields umlaut_statement) (str " ")).
Proof.
  destruct (truncateStatement_slice_in_range umlaut_statement 50)
    as [H1 [_ H3]]; [unfold int_max; lia|].
  split; [exact H1|]. apply H3. vm_compute. reflexivity.
Defined.

(** * Further properties *)

(** ** truncateStatement *)

(** X22. Counted in bytes, as [len] counts, the bound is kept: for a bound
    of at least 3, [truncateStatement] returns the statement with its white
    space collapsed and trimmed when that is at most [maxLen] bytes long,
    and otherwise its first [maxLen - 3] bytes followed by three dots,
    [maxLen] bytes in all; the result is never longer than [maxLen]
    bytes. *)
Theorem truncateStatement_collapses_and_bounds s maxLen :
  3 <= maxLen <= int_max ->
  exists r,
    truncateStatement s maxLen = Some r
    /\ strings.Join (strings.Fields s) (str " ") = spec_collapse s
    /\ (len (spec_collapse s) <= maxLen -> r = spec_collapse s)
    /\ (maxLen < len (spec_collapse s) ->
        r = firstn (Z.to_nat (maxLen - 3)) (spec_collapse s) ++ str "..."
        /\ len r = maxLen)
    /\ len r <= maxLen.
Proof.
  intros H. exists (spec_truncated (spec_collapse s) maxLen).
  destruct (truncated_len (spec_collapse s) maxLen) as [L1 L2]; [lia|].
  split; [apply truncateStatement_eq, H|].
  split; [apply Join_Fields|].
  unfold spec_truncated in *.
  destruct (len (spec_collapse s) <=? maxLen) eqn:E.
  - apply Z.leb_le in E. repeat split; try assumption; try reflexivity; lia.
  - apply Z.leb_gt in E. repeat split; try assumption; try reflexivity; try lia.
    all: apply L2; assumption.
Qed.

Lemma truncateStatement_collapses_and_bounds_witness :
  exists r,
    truncateStatement (str "SELECT  *
   FROM  users") 12 = Some r
    /\ r = str "SELECT * ..." /\ len r = 12.
Proof.
  destruct (truncateStatement_collapses_and_bounds (str "SELECT  *
   FROM  users") 12) as [r [H1 [_ [_ [H3 _]]]]];
    [unfold int_max; lia|].
  exists r. split; [exact H1|].
  destruct H3 as [H3 H4]; [vm_compute; reflexivity|].
  split; [rewrite H3; vm_compute; reflexivity | exact H4].
Defined.

Lemma decode_shape_first s :
  s <> [] ->
  chunk_shape (fst (utf8.DecodeRuneInString s),
               firstn (snd (utf8.DecodeRuneInString s)) s).
Proof.
  intros Hs. destruct s as [|b0 s]; [congruence|].
  pose proof (b2z_range b0).
  destruct (utf8.DecodeRuneInString (b0 :: s)) as [r w] eqn:D.
  unfold utf8.DecodeRuneInString, utf8.at_ in D. cbn [nth] in D.
  unfold utf8.RuneSelf, utf8.first, utf8.locb, utf8.hicb in D.
  unfold chunk_shape. cbn [fst snd].
  destruct s as [|b1 [|b2 [|b3 s]]];
    try pose proof (b2z_range b1); try pose proof (b2z_range b2);
    try pose proof (b2z_range b3);
    guards_in D; inversion D; subst r w; clear D; cbn [firstn].
  all: first
    [ left; split; [rewrite z2b_b2z; reflexivity | lia]
    | right; repeat constructor; lia ].
Qed.

Lemma decode_shape s : Forall chunk_shape (decode s).
Proof.
  remember (length s) as n eqn:Hn. revert s Hn.
  induction n as [n IH] using lt_wf_ind. intros s Hn.
  destruct s as [|b s]; [constructor|].
  rewrite decode_step by congruence.
  pose proof (decode_width (b :: s) ltac:(congruence)) as W.
  constructor; [apply decode_shape_first; congruence|].
  apply (IH (length (skipn (snd (utf8.DecodeRuneInString (b :: s))) (b :: s))));
    [|reflexivity].
  rewrite length_skipn. subst n. lia.
Qed.

Lemma shape_clean c :
  chunk_shape c -> snd c <> [] -> IsSpace (fst c) = false -> chunk_clean c.
Proof.
  intros [[E R]|F] Hne Sp; split; try exact Hne.
  - rewrite E. cbn [existsb]. rewrite orb_false_r. unfold line_break.
    rewrite b2z_z2b by lia. unfold IsSpace in Sp.
    repeat (apply orb_false_iff in Sp; destruct Sp as [Sp ?]). exact Sp.
  - clear Hne Sp. induction F as [|b l Hb F IH]; [reflexivity|].
    cbn [existsb]. rewrite IH, orb_false_r. unfold line_break.
    apply andb_false_iff. right. apply Z.leb_gt. lia.
Qed.

Lemma decode_chunk_nonempty s : Forall (fun c : chunk => snd c <> []) (decode s).
Proof.
  remember (length s) as n eqn:Hn. revert s Hn.
  induction n as [n IH] using lt_wf_ind. intros s Hn.
  destruct s as [|b s]; [constructor|].
  rewrite decode_step by congruence.
  pose proof (decode_width (b :: s) ltac:(congruence)) as W.
  constructor.
  - cbn [snd]. destruct (snd (utf8.DecodeRuneInString (b :: s))); [lia|].
    cbn. discriminate.
  - apply (IH (length (skipn (snd (utf8.DecodeRuneInString (b :: s))) (b :: s))));
      [|reflexivity].
    rewrite length_skipn. subst n. lia.
Qed.

Lemma spec_runs_clean cs : forall b,
  Forall chunk_shape cs -> Forall (fun c : chunk => snd c <> []) cs ->
  Forall chunk_clean (spec_runs cs b).
Proof.
  induction cs as [|c t IH]; intros b S N; [constructor|].
  inversion S; subst. inversion N; subst. cbn [spec_runs].
  destruct (IsSpace (fst c)) eqn:E.
  - destruct b; [auto|]. constructor; [|auto].
    split; [reflexivity | discriminate].
  - constructor; [apply shape_clean; assumption | auto].
Qed.

Lemma trim_left_Forall (P : chunk -> Prop) cs :
  Forall P cs -> Forall P (strings.trim_left cs).
Proof.
  induction 1 as [|c t Hc Ht IH]; [constructor|]. cbn.
  destruct (IsSpace (fst c)); [exact IH | constructor; assumption].
Qed.

Lemma trim_Forall (P : chunk -> Prop) cs : Forall P cs -> Forall P (trim cs).
Proof.
  intros H. unfold trim, strings.trim_right.
  apply Forall_rev, trim_left_Forall, Forall_rev, trim_left_Forall, H.
Qed.

Lemma bytes_of_clean cs :
  Forall chunk_clean cs -> existsb line_break (strings.bytes_of cs) = false.
Proof.
  induction 1 as [|c t [Hc _] Ht IH]; [reflexivity|].
  unfold strings.bytes_of in *. cbn [flat_map].
  rewrite existsb_app, Hc, IH. reflexivity.
Qed.

Lemma spec_collapse_clean s : existsb line_break (spec_collapse s) = false.
Proof.
  unfold spec_collapse.
  apply bytes_of_clean, trim_Forall, spec_runs_clean;
    [apply decode_shape | apply decode_chunk_nonempty].
Qed.

Lemma existsb_firstn {A} (f : A -> bool) n l :
  existsb f l = false -> existsb f (firstn n l) = false.
Proof.
  revert n. induction l as [|a l IH]; intros [|n] H; try reflexivity.
  cbn in *. apply orb_false_iff in H. destruct H as [Ha Hl].
  rewrite Ha, IH by exact Hl. reflexivity.
Qed.

Lemma spec_truncated_clean c n :
  existsb line_break c = false ->
  existsb line_break (spec_truncated c n) = false.
Proof.
  intros C. unfold spec_truncated. destruct (len c <=? n); [exact C|].
  rewrite existsb_app, existsb_firstn by exact C. reflexivity.
Qed.

(** X12. Whatever [truncateStatement] returns is one line: it contains no tab,
    newline, vertical tab, form feed or carriage return. *)
Theorem truncateStatement_single_line s maxLen r :
  truncateStatement s maxLen = Some r -> existsb line_break r = false.
Proof.
  unfold truncateStatement. rewrite Join_Fields.
  pose proof (spec_collapse_clean s) as C.
  destruct (len (spec_collapse s) <=? maxLen).
  - intros E. inversion E. subst r. exact C.
  - unfold slice_to.
    destruct ((0 <=? int_sub maxLen 3)
              && (int_sub maxLen 3 <=? len (spec_collapse s)))%bool;
      [|discriminate].
    intros E. inversion E. subst r.
    rewrite existsb_app, existsb_firstn by exact C. reflexivity.
Qed.


Lemma truncateStatement_single_line_witness :
  existsb line_break (str "SELECT id, name FROM users") = false.
Proof.
  apply (truncateStatement_single_line (str "SELECT
  id,
  name
FROM users") 50).
  vm_compute. reflexivity.
Defined.

Lemma bytes_of_cons c cs :
  strings.bytes_of (c :: cs) = snd c ++ strings.bytes_of cs.
Proof. reflexivity. Qed.

Lemma bytes_of_app a b :
  strings.bytes_of (a ++ b) = strings.bytes_of a ++ strings.bytes_of b.
Proof. unfold strings.bytes_of. apply flat_map_app. Qed.

Lemma bytes_of_rev_length cs :
  length (strings.bytes_of (rev cs)) = length (strings.bytes_of cs).
Proof.
  induction cs as [|c t IH]; [reflexivity|].
  cbn [rev]. rewrite bytes_of_app, !bytes_of_cons, !length_app, IH.
  change (strings.bytes_of []) with (@nil byte). cbn [length]. lia.
Qed.

Lemma trim_left_length cs :
  (length (strings.bytes_of (strings.trim_left cs))
   <= length (strings.bytes_of cs))%nat.
Proof.
  induction cs as [|c t IH]; [cbn; lia|]. cbn [strings.trim_left].
  destruct (IsSpace (fst c)); [|lia].
  rewrite bytes_of_cons, length_app. lia.
Qed.

Lemma trim_length cs :
  (length (strings.bytes_of (trim cs)) <= length (strings.bytes_of cs))%nat.
Proof.
  unfold trim, strings.trim_right. rewrite bytes_of_rev_length.
  etransitivity; [apply trim_left_length|].
  rewrite bytes_of_rev_length. apply trim_left_length.
Qed.

Lemma spec_runs_length cs : forall b,
  Forall (fun c : chunk => snd c <> []) cs ->
  (length (strings.bytes_of (spec_runs cs b))
   <= length (strings.bytes_of cs))%nat.
Proof.
  induction cs as [|c t IH]; intros b N; [cbn; lia|].
  inversion N as [|? ? Hc Ht]; subst. cbn [spec_runs].
  rewrite bytes_of_cons, length_app.
  assert (1 <= length (snd c))%nat by (destruct (snd c); [congruence | cbn; lia]).
  destruct (IsSpace (fst c)).
  - destruct b.
    + specialize (IH true Ht). lia.
    + rewrite bytes_of_cons, length_app. specialize (IH true Ht). cbn. lia.
  - rewrite bytes_of_cons, length_app. specialize (IH false Ht). lia.
Qed.

Lemma spec_collapse_length s : len (spec_collapse s) <= len s.
Proof.
  unfold spec_collapse, len. apply inj_le.
  etransitivity; [apply trim_length|].
  etransitivity; [apply spec_runs_length, decode_chunk_nonempty|].
  rewrite bytes_of_decode. lia.
Qed.

(** X13. [truncateStatement] never returns more bytes than it was given. *)
Theorem truncateStatement_never_longer s maxLen r :
  3 <= maxLen <= int_max ->
  truncateStatement s maxLen = Some r ->
  len r <= len s.
Proof.
  intros H E. rewrite truncateStatement_eq in E by exact H.
  inversion E. subst r.
  pose proof (spec_collapse_length s).
  destruct (truncated_len (spec_collapse s) maxLen) as [L1 L2]; [lia|].
  unfold spec_truncated in *.
  destruct (len (spec_collapse s) <=? maxLen) eqn:G; [lia|].
  apply Z.leb_gt in G. specialize (L2 G). lia.
Qed.

Lemma truncateStatement_never_longer_witness :
  len (str "SELECT * ...") <= len (str "SELECT  *
   FROM  users").
Proof.
  apply (truncateStatement_never_longer _ 12);
    [unfold int_max; lia | vm_compute; reflexivity].
Defined.

(** ** loadInitFile *)

Lemma truncateStatement_returns s n :
  3 <= n <= int_max ->
  exists r, truncateStatement s n = Some r /\ len r <= n.
Proof.
  intros H. exists (spec_truncated (spec_collapse s) n).
  split; [apply truncateStatement_eq, H|].
  apply truncated_len. lia.
Qed.

Section LoadInitFile.
Context `{Outside}.

(** What the loop over the statements does, told by the first failing
    statement. *)
Lemma exec_statements_spec stmts : forall ctx i m,
  match first_error ctx stmts (mainDB m) with
  | None =>
    exists m',
      exec_statements ctx i stmts m = (m', Returns None)
      /\ mainDB m' = run_all ctx stmts (mainDB m)
      /\ queryTimeout m' = queryTimeout m
  | Some (k, err) =>
    exists m' stmt shown,
      nth_error stmts k = Some stmt
      /\ truncateStatement stmt 50 = Some shown
      /\ len shown <= 50
      /\ exec_statements ctx i stmts m
         = (m', Returns (Some (mkWrapError
                (str "failed to execute init statement "
                 ++ itoa (i + Z.of_nat k + 1)
                 ++ str " (" ++ shown ++ str "): " ++ Error err) err)))
      /\ mainDB m' = run_all ctx (firstn (S k) stmts) (mainDB m)
  end.
Proof.
  induction stmts as [|stmt rest IH]; intros ctx i m.
  - cbn. exists m. repeat split.
  - cbn [first_error exec_statements].
    destruct (truncateStatement_returns stmt 100) as [s100 [E100 _]];
      [unfold int_max; lia|].
    destruct (truncateStatement_returns stmt 50) as [s50 [E50 L50]];
      [unfold int_max; lia|].
    rewrite E100. cbn [log mainDB].
    destruct (ExecContext ctx stmt (mainDB m)) as [db [err|]] eqn:X.
    + rewrite E50. eexists _, stmt, s50.
      split; [reflexivity|]. split; [exact E50|]. split; [exact L50|].
      split; [rewrite Z.add_0_r; reflexivity|].
      cbn [set_mainDB mainDB firstn run_all fold_left]. rewrite X. reflexivity.
    + specialize (IH ctx (i + 1)
        (set_mainDB
           (log m DebugLevel (str "Executing init statement")
                [zap_Int (str "index") (i + 1);
                 zap_String (str "statement") s100]) db)).
      cbn [set_mainDB log mainDB queryTimeout] in IH.
      cbn [set_mainDB log mainDB queryTimeout logger].
      destruct (first_error ctx rest db) as [[k err]|].
      * destruct IH as [m' [st [shown [N [T [L [E W]]]]]]].
        exists m', st, shown.
        split; [exact N|]. split; [exact T|]. split; [exact L|].
        split.
        -- rewrite E.
           replace (i + Z.of_nat (S k) + 1) with (i + 1 + Z.of_nat k + 1) by lia.
           reflexivity.
        -- rewrite W. cbn [firstn run_all fold_left]. rewrite X. reflexivity.
      * destruct IH as [m' [E [W Q]]]. exists m'.
        split; [exact E|]. split; [|exact Q].
        rewrite W. cbn [run_all fold_left]. rewrite X. reflexivity.
Qed.

(** [loadInitFile] on a file that could be read, told by the first failing
    statement. *)
Lemma loadInitFile_cases m path content :
  ReadFile path = inl content ->
  match first_error (WithTimeout (queryTimeout m) (mainDB m))
                    (fst (parseSQL content)) (mainDB m) with
  | None =>
    snd (loadInitFile m path) = Returns None
    /\ mainDB (fst (loadInitFile m path))
       = run_all (WithTimeout (queryTimeout m) (mainDB m))
                 (fst (parseSQL content)) (mainDB m)
  | Some (k, err) =>
    exists stmt shown,
      nth_error (fst (parseSQL content)) k = Some stmt
      /\ truncateStatement stmt 50 = Some shown
      /\ len shown <= 50
      /\ snd (loadInitFile m path)
         = Returns (Some (mkWrapError
              (str "failed to execute init statement "
               ++ itoa (Z.of_nat k + 1)
               ++ str " (" ++ shown ++ str "): " ++ Error err) err))
      /\ mainDB (fst (loadInitFile m path))
         = run_all (WithTimeout (queryTimeout m) (mainDB m))
                   (firstn (S k) (fst (parseSQL content))) (mainDB m)
  end.
Proof.
  intros R. unfold loadInitFile. rewrite R.
  change (parseSQL content) with (fst (parseSQL content), @None error).
  cbn iota. cbn [fst].
  destruct (fst (parseSQL content)) as [|s ss] eqn:P.
  - cbn. split; reflexivity.
  - cbn [length]. rewrite Nat2Z.inj_succ.
    destruct (Z.succ (Z.of_nat (length ss)) =? 0) eqn:Z0;
      [apply Z.eqb_eq in Z0; lia|].
    cbn zeta.
    pose proof (exec_statements_spec (s :: ss)
      (WithTimeout (queryTimeout m) (mainDB m)) 0
      (log m InfoLevel (str "Executing init SQL file")
           [zap_String (str "path") path;
            zap_Int (str "statements") (Z.succ (Z.of_nat (length ss)))])) as E.
    cbn [log mainDB queryTimeout] in E |- *.
    destruct (first_error (WithTimeout (queryTimeout m) (mainDB m)) (s :: ss)
                          (mainDB m)) as [[k err]|].
    + destruct E as [m' [stmt [shown [N [T [L [E W]]]]]]].
      exists stmt, shown. rewrite E. cbn [fst snd].
      repeat split; assumption.
    + destruct E as [m' [E [W _]]].
      rewrite E. cbn [fst snd mainDB]. split; [reflexivity | exact W].
Qed.

End LoadInitFile.

Section LoadInitFileMore.
Context `{Outside}.

Lemma exec_statements_no_panic stmts : forall ctx i m,
  snd (exec_statements ctx i stmts m) <> Panics.
Proof.
  induction stmts as [|stmt rest IH]; intros ctx i m;
    cbn [exec_statements]; [discriminate|].
  destruct (truncateStatement_returns stmt 100) as [s100 [E100 _]];
    [unfold int_max; lia|].
  destruct (truncateStatement_returns stmt 50) as [s50 [E50 _]];
    [unfold int_max; lia|].
  rewrite E100.
  destruct (ExecContext _ _ _) as [db [err|]].
  - rewrite E50. discriminate.
  - apply IH.
Qed.

(** X4. [loadInitFile] never panics: the bounds 100 and 50 it passes to
    [truncateStatement] keep the slice in range, whatever the file holds and
    whatever the database answers. *)
Theorem loadInitFile_never_panics m path :
  snd (loadInitFile m path) <> Panics.
Proof.
  unfold loadInitFile.
  destruct (ReadFile path) as [content|err]; [|discriminate].
  change (parseSQL content) with (fst (parseSQL content), @None error).
  cbn iota.
  destruct (Z.of_nat (length (fst (parseSQL content))) =? 0); [discriminate|].
  cbn zeta.
  match goal with
  | |- context [exec_statements ?c ?i ?s ?m0] =>
    pose proof (exec_statements_no_panic s c i m0) as NP;
    destruct (exec_statements c i s m0) as [m' [[e|]|]]
  end; cbn [snd] in *; congruence.
Qed.

Lemma exec_statements_preserves (Q : world -> Prop) stmts : forall ctx i m,
  (forall stmt w, In stmt stmts -> Q w -> Q (fst (ExecContext ctx stmt w))) ->
  Q (mainDB m) ->
  Q (mainDB (fst (exec_statements ctx i stmts m))).
Proof.
  induction stmts as [|stmt rest IH]; intros ctx i m Step Q0;
    cbn [exec_statements]; [exact Q0|].
  destruct (truncateStatement stmt 100) as [s100|]; [|exact Q0].
  cbn [log mainDB].
  pose proof (Step stmt (mainDB m) (or_introl eq_refl) Q0) as Q1.
  destruct (ExecContext ctx stmt (mainDB m)) as [db [err|]]; cbn [fst] in Q1.
  - destruct (truncateStatement stmt 50); exact Q1.
  - apply IH; [|exact Q1].
    intros s w Hin. apply Step. right. exact Hin.
Qed.

(** X5. The database is only ever given statements that are non-empty, trimmed
    and well-formed UTF-8: whatever such statements preserve,
    [loadInitFile] preserves. *)
Theorem loadInitFile_sends_only_trimmed (Q : world -> Prop) m path :
  (forall ctx stmt w,
      trimmed stmt -> ValidString stmt = true ->
      Q w -> Q (fst (ExecContext ctx stmt w))) ->
  Q (mainDB m) ->
  Q (mainDB (fst (loadInitFile m path))).
Proof.
  intros Step Q0. unfold loadInitFile.
  destruct (ReadFile path) as [content|err]; [|exact Q0].
  destruct (parseSQL_ok content) as [T E].
  change (parseSQL content) with (fst (parseSQL content), @None error).
  cbn iota.
  destruct (Z.of_nat (length (fst (parseSQL content))) =? 0); [exact Q0|].
  cbn zeta.
  match goal with
  | |- context [exec_statements ?c ?i ?s ?m0] =>
    pose proof (exec_statements_preserves Q s c i m0) as P;
    destruct (exec_statements c i s m0) as [m' [[e|]|]]
  end; cbn [fst mainDB log] in *; apply P; try exact Q0.
  all: intros stmt w Hin; apply Step;
    [ exact (proj1 (Forall_forall _ _) T stmt Hin)
    | apply encoded_valid; exact (proj1 (Forall_forall _ _) E stmt Hin) ].
Qed.

Lemma exec_statements_log stmts : forall ctx i m,
  exists new,
    logger (fst (exec_statements ctx i stmts m)) = logger m ++ new
    /\ Forall (entry_short 100) new.
Proof.
  induction stmts as [|stmt rest IH]; intros ctx i m; cbn [exec_statements].
  - exists []. rewrite app_nil_r. split; [reflexivity | constructor].
  - destruct (truncateStatement stmt 100) as [s100|] eqn:E100.
    2:{ exists []. rewrite app_nil_r. split; [reflexivity | constructor]. }
    assert (S100 : entry_short 100
              (mkEntry DebugLevel (str "Executing init statement")
                       [zap_Int (str "index") (i + 1);
                        zap_String (str "statement") s100])).
    { unfold entry_short. cbn [entry_fields].
      constructor; [exact I|]. constructor; [|constructor].
      intros _. split.
      - destruct (truncateStatement_returns stmt 100) as [r [E L]];
          [unfold int_max; lia|]. congruence.
      - rewrite truncateStatement_eq in E100 by (unfold int_max; lia).
        inversion E100. apply spec_truncated_clean, spec_collapse_clean. }
    cbn [log mainDB].
    destruct (ExecContext ctx stmt (mainDB m)) as [db [err|]].
    + eexists [_].
      destruct (truncateStatement stmt 50); cbn [fst set_mainDB logger];
        (split; [reflexivity | constructor; [exact S100 | constructor]]).
    + match goal with
      | |- context [exec_statements ctx (i + 1) rest ?m1] =>
        destruct (IH ctx (i + 1) m1) as [new [L F]]
      end.
      eexists (_ :: new). rewrite L. cbn [set_mainDB log logger].
      rewrite <- app_assoc. split; [reflexivity|].
      constructor; [exact S100 | exact F].
Qed.

End LoadInitFileMore.

Section LoadInitFileTheorems.
Context `{Outside}.

(** X1. When the file is read and the database accepts every statement,
    [loadInitFile] returns [nil] and the database has run all the
    statements of [parseSQL], in its order. *)
Theorem loadInitFile_runs_all m path content :
  ReadFile path = inl content ->
  first_error (WithTimeout (queryTimeout m) (mainDB m))
              (fst (parseSQL content)) (mainDB m) = None ->
  snd (loadInitFile m path) = Returns None
  /\ mainDB (fst (loadInitFile m path))
     = run_all (WithTimeout (queryTimeout m) (mainDB m))
               (fst (parseSQL content)) (mainDB m).
Proof.
  intros R F. pose proof (loadInitFile_cases m path content R) as C.
  rewrite F in C. exact C.
Qed.

(** X2. When the database rejects a statement, [loadInitFile] stops there: the
    statements before it and the rejected one have been run, in order, and
    no later one.  The error wraps the database's and its message gives the
    position of the statement, counted from 1, and at most 50 bytes of its
    text. *)
Theorem loadInitFile_stops_at_first_error m path content k err :
  ReadFile path = inl content ->
  first_error (WithTimeout (queryTimeout m) (mainDB m))
              (fst (parseSQL content)) (mainDB m) = Some (k, err) ->
  exists stmt shown,
    nth_error (fst (parseSQL content)) k = Some stmt
    /\ truncateStatement stmt 50 = Some shown
    /\ len shown <= 50
    /\ snd (loadInitFile m path)
       = Returns (Some (mkWrapError
            (str "failed to execute init statement "
             ++ itoa (Z.of_nat k + 1)
             ++ str " (" ++ shown ++ str "): " ++ Error err) err))
    /\ mainDB (fst (loadInitFile m path))
       = run_all (WithTimeout (queryTimeout m) (mainDB m))
                 (firstn (S k) (fst (parseSQL content))) (mainDB m).
Proof.
  intros R F. pose proof (loadInitFile_cases m path content R) as C.
  rewrite F in C. exact C.
Qed.

(** X3. [loadInitFile] returns [nil] exactly when the file could be read and the
    database accepted every one of its statements; a file without
    statements counts. *)
Theorem loadInitFile_nil_iff m path :
  snd (loadInitFile m path) = Returns None
  <-> exists content,
        ReadFile path = inl content
        /\ first_error (WithTimeout (queryTimeout m) (mainDB m))
                       (fst (parseSQL content)) (mainDB m) = None.
Proof.
  split.
  - intros N. destruct (ReadFile path) as [content|err] eqn:R.
    + exists content. split; [reflexivity|].
      pose proof (loadInitFile_cases m path content R) as C.
      destruct (first_error _ _ _) as [[k err]|]; [|reflexivity].
      destruct C as [stmt [shown [_ [_ [_ [E _]]]]]].
      rewrite E in N. discriminate.
    + unfold loadInitFile in N. rewrite R in N. discriminate.
  - intros [content [R F]].
    pose proof (loadInitFile_cases m path content R) as C.
    rewrite F in C. apply C.
Qed.

(** X6. [loadInitFile] only adds to the log, and a statement is never logged
    whole: every [statement] field it writes holds at most 100 bytes, on one
    line. *)
Theorem loadInitFile_log_bounded m path :
  exists new,
    logger (fst (loadInitFile m path)) = logger m ++ new
    /\ Forall (entry_short 100) new.
Proof.
  assert (P : forall k v, k <> str "statement" -> field_short 100 (zap_String k v))
    by (intros k v Hk Q; contradiction).
  assert (A : forall l msg n, entry_short 100
                (mkEntry l msg [zap_String (str "path") path; zap_Int (str "statements") n])).
  { intros. apply Forall_cons; [apply P; discriminate|].
    apply Forall_cons; [exact I | apply Forall_nil]. }
  assert (B : forall l msg n, entry_short 100
                (mkEntry l msg [zap_String (str "path") path;
                                zap_Int (str "statements_executed") n])).
  { intros. apply Forall_cons; [apply P; discriminate|].
    apply Forall_cons; [exact I | apply Forall_nil]. }
  assert (C : forall l msg, entry_short 100
                (mkEntry l msg [zap_String (str "path") path])).
  { intros. apply Forall_cons; [apply P; discriminate | apply Forall_nil]. }
  unfold loadInitFile.
  destruct (ReadFile path) as [content|err];
    [|exists []; rewrite app_nil_r; split; [reflexivity | constructor]].
  change (parseSQL content) with (fst (parseSQL content), @None error).
  cbn iota.
  destruct (Z.of_nat (length (fst (parseSQL content))) =? 0).
  - eexists [_]. split; [reflexivity|].
    apply Forall_cons; [apply C | apply Forall_nil].
  - cbn zeta.
    match goal with
    | |- context [exec_statements ?c ?i ?s ?m0] =>
      destruct (exec_statements_log s c i m0) as [new [L F]];
      destruct (exec_statements c i s m0) as [m' [[e|]|]]
    end; cbn [fst log logger] in L |- *.
    + eexists (_ :: new). rewrite L, <- app_assoc. split; [reflexivity|].
      apply Forall_cons; [apply A | exact F].
    + eexists (_ :: new ++ [_]). rewrite L, <- !app_assoc.
      split; [reflexivity|].
      apply Forall_cons; [apply A|].
      apply Forall_app. split; [exact F|].
      apply Forall_cons; [apply B | apply Forall_nil].
    + eexists (_ :: new). rewrite L, <- app_assoc. split; [reflexivity|].
      apply Forall_cons; [apply A | exact F].
Qed.

End LoadInitFileTheorems.

Lemma loadInitFile_runs_all_witness :
  snd (@loadInitFile recording fresh (str "ok.sql")) = Returns None
  /\ @mainDB recording (fst (@loadInitFile recording fresh (str "ok.sql")))
     = [str "INSTALL httpfs"; str "LOAD httpfs"].
Proof.
  destruct (@loadInitFile_runs_all recording fresh (str "ok.sql")
              (str "INSTALL httpfs; LOAD httpfs;"))
    as [H1 H2]; [reflexivity | vm_compute; reflexivity |].
  split; [exact H1|]. rewrite H2. vm_compute. reflexivity.
Defined.

Lemma loadInitFile_stops_at_first_error_witness :
  exists stmt shown,
    nth_error (fst (parseSQL init_sql)) 2 = Some stmt
    /\ truncateStatement stmt 50 = Some shown
    /\ snd (@loadInitFile recording fresh (str "init.sql"))
       = Returns (Some (mkWrapError
            (str "failed to execute init statement 3 (" ++ shown
             ++ str "): syntax error")
            (errorString (str "syntax error"))))
    /\ @mainDB recording (fst (@loadInitFile recording fresh (str "init.sql")))
       = [str "CREATE TABLE t (a INT)"; str "INSERT INTO t VALUES (';')";
          str "FAIL"].
Proof.
  destruct (@loadInitFile_stops_at_first_error recording fresh
              (str "init.sql")
              init_sql 2%nat
              (errorString (str "syntax error")))
    as [stmt [shown [N [T [_ [E W]]]]]];
    [vm_compute; reflexivity | vm_compute; reflexivity |].
  exists stmt, shown.
  split; [exact N|]. split; [exact T|].
  split; [exact E|]. rewrite W. vm_compute. reflexivity.
Defined.

Lemma loadInitFile_sends_only_trimmed_witness :
  Forall trimmed
         (@mainDB recording (fst (@loadInitFile recording fresh
                                                (str "init.sql")))).
Proof.
  apply (@loadInitFile_sends_only_trimmed recording (Forall trimmed)).
  - intros ctx stmt w T V Q. cbn. apply Forall_app. split; [exact Q|].
    constructor; [exact T | constructor].
  - constructor.
Defined.

(** ** Joining and counting *)

(** X7. A file made of two parts joined by a terminator splits into the
    statements of the first part followed by those of the second, when the
    first part is well-formed UTF-8 and does not end inside a string literal
    or a comment. *)
Theorem parseSQL_concat a b :
  ValidString a = true ->
  normal (loop (runes_of a) init) = true ->
  fst (parseSQL (a ++ str ";" ++ b))
  = fst (parseSQL a) ++ fst (parseSQL b).
Proof.
  intros V N. unfold parseSQL. cbn [fst].
  rewrite runes_of_app_valid by exact V. rewrite runes_of_semicolon.
  rewrite loop_app_inert by reflexivity.
  cbn [loop]. destruct (normal_flags _ N) as [S [B L]].
  rewrite L, B, S. cbn [Z.eqb semicolon quote dash slash Pos.eqb andb].
  rewrite terminate_normal by exact N.
  rewrite loop_prepend, flush_prepend. reflexivity.
Qed.

Lemma parseSQL_concat_witness :
  fst (parseSQL (str "SELECT 'a;' /* ; */" ++ str ";" ++ str "SELECT 2 -- x"))
  = fst (parseSQL (str "SELECT 'a;' /* ; */"))
    ++ fst (parseSQL (str "SELECT 2 -- x")).
Proof.
  apply (parseSQL_concat (str "SELECT 'a;' /* ; */") (str "SELECT 2 -- x"));
    vm_compute; reflexivity.
Defined.

(** X8. [parseSQL] never returns more statements than the text has terminators,
    plus one for the text after the last. *)
Theorem parseSQL_count_bound content :
  (length (fst (parseSQL content)) <= terminators (runes_of content) + 1)%nat.
Proof.
  unfold parseSQL. cbn [fst].
  pose proof (flush_length (loop (runes_of content) init)).
  pose proof (loop_count (runes_of content) init).
  cbn [init statements length] in *. lia.
Qed.

(** X9. The three flags of the scanner are never set together: from a
    state with at most one of them set, as the initial state is, scanning
    any input ends in normal mode, in a string literal, in a block comment
    or in a line comment, and in one of them only. *)
Theorem scanner_one_mode rs st :
  one_mode st = true ->
  one_mode (loop rs st) = true /\ one_mode init = true.
Proof.
  intros O. split; [|reflexivity]. revert st O.
  induction rs as [|c rest IHr IHs] using skip_ind; intros st O; [exact O|].
  cbn [loop].
  destruct (inLineComment st) eqn:L, (inBlockComment st) eqn:B,
    (inString st) eqn:S;
    unfold one_mode in O; rewrite ?L, ?B, ?S in O; try discriminate;
    repeat match goal with
           | |- context [if ?b then _ else _] => destruct b
           end;
    first [apply IHr | apply IHs];
    unfold one_mode;
    cbn [write terminate set_inString set_inBlockComment set_inLineComment
         inString inBlockComment inLineComment];
    rewrite ?L, ?B, ?S; reflexivity.
Qed.

Lemma scanner_one_mode_witness :
  one_mode (loop (runes_of (str "SELECT '/* -- ' /* -- ' ")) init) = true.
Proof.
  apply (scanner_one_mode (runes_of (str "SELECT '/* -- ' /* -- ' ")) init).
  reflexivity.
Defined.

(** ** No terminator outside a literal *)

Lemma semi_free_nil : semi_free [].
Proof. exists []. split; [reflexivity | constructor]. Qed.

Lemma semi_free_write b r :
  r <> semicolon -> semi_free b -> semi_free (strings.WriteRune b r).
Proof.
  intros Hr [rs [E F]]. exists (rs ++ [r]). subst b. split.
  - rewrite string_of_runes_app. unfold strings.WriteRune. cbn.
    rewrite app_nil_r. reflexivity.
  - apply Forall_app. split; [exact F | constructor; [exact Hr | constructor]].
Qed.

Lemma trim_left_canon_P (P : Z -> Prop) rs :
  Forall P rs ->
  exists rs', strings.trim_left (map chunk_of rs) = map chunk_of rs'
              /\ Forall P rs'.
Proof.
  induction 1 as [|r rs Hr F IH]; [exists []; split; [reflexivity | constructor]|].
  cbn [map strings.trim_left].
  destruct (IsSpace (fst (chunk_of r))); [exact IH|].
  exists (r :: rs). split; [reflexivity | constructor; assumption].
Qed.

Lemma trim_canon_P (P : Z -> Prop) rs :
  Forall P rs ->
  exists rs', trim (map chunk_of rs) = map chunk_of rs' /\ Forall P rs'.
Proof.
  intros F. unfold trim, strings.trim_right.
  destruct (trim_left_canon_P P rs F) as [r1 [E1 F1]]. rewrite E1.
  rewrite <- map_rev.
  destruct (trim_left_canon_P P (rev r1) (Forall_rev F1)) as [r2 [E2 F2]].
  rewrite E2. exists (rev r2). rewrite map_rev.
  split; [reflexivity | apply Forall_rev, F2].
Qed.

Lemma semi_free_TrimSpace s : semi_free s -> semi_free (strings.TrimSpace s).
Proof.
  intros [rs [E F]]. subst s.
  destruct (trim_canon_P _ rs F) as [rs' [T F']].
  exists rs'. split; [|exact F'].
  unfold strings.TrimSpace. rewrite decode_string_of_runes.
  fold (trim (map chunk_of rs)). rewrite T. apply bytes_of_canon.
Qed.

Lemma semi_free_flush st :
  semi_free (currentStmt st) -> Forall semi_free (statements st) ->
  Forall semi_free (flush st).
Proof.
  intros C S. unfold flush. pose proof (semi_free_TrimSpace _ C) as T.
  destruct (strings.TrimSpace (currentStmt st)); [exact S|].
  apply Forall_app. split; [exact S | constructor; [exact T | constructor]].
Qed.

Lemma loop_semi_free rs : forall st,
  mem quote rs = false ->
  inString st = false ->
  semi_free (currentStmt st) -> Forall semi_free (statements st) ->
  semi_free (currentStmt (loop rs st))
  /\ Forall semi_free (statements (loop rs st)).
Proof.
  induction rs as [|c rest IHr IHs] using skip_ind; intros st M S C F;
    [split; assumption|].
  apply mem_cons in M. destruct M as [Hc M].
  assert (Ms : mem quote (skip rest) = false).
  { destruct rest as [|c1 r]; [reflexivity|]. cbn [skip].
    apply mem_cons in M. apply M. }
  cbn [loop]. rewrite S.
  destruct (c =? quote) eqn:Q; [apply Z.eqb_eq in Q; congruence|].
  repeat match goal with
         | |- context [if ?b then _ else _] => destruct b eqn:?
         end;
    first [apply IHr | apply IHs]; try assumption;
    cbn [write terminate set_inString set_inBlockComment set_inLineComment
         inString currentStmt statements];
    try assumption.
  - apply semi_free_write; [discriminate | exact C].
  - apply semi_free_nil.
  - apply semi_free_flush; assumption.
  - apply semi_free_write; [|exact C].
    intros ->. discriminate.
Qed.

Lemma semi_free_bytes s : semi_free s -> existsb (Byte.eqb x3b) s = false.
Proof.
  intros [rs [E F]]. subst s.
  induction F as [|r rs Hr F IH]; [reflexivity|].
  rewrite string_of_runes_cons, existsb_app, IH, orb_false_r.
  pose proof (decode_shape (utf8.EncodeRune r)) as Sh.
  rewrite <- (app_nil_r (utf8.EncodeRune r)) in Sh.
  rewrite decode_encode_app in Sh. inversion Sh as [|? ? [[E R]|G] _]; subst.
  - cbn [fst snd] in E, R. rewrite E. cbn [existsb]. rewrite orb_false_r.
    destruct (Byte.eqb x3b (z2b (fix_rune r))) eqn:Q; [|reflexivity].
    apply Byte.byte_dec_bl in Q.
    assert (B : b2z (z2b (fix_rune r)) = 59) by (rewrite <- Q; reflexivity).
    rewrite b2z_z2b in B by lia.
    unfold fix_rune in B. destruct (utf8.ValidRune r); [|discriminate].
    contradiction.
  - cbn [snd] in G. clear -G.
    induction G as [|b l Hb G IH]; [reflexivity|]. cbn [existsb].
    rewrite IH, orb_false_r.
    destruct (Byte.eqb x3b b) eqn:Q; [|reflexivity].
    apply Byte.byte_dec_bl in Q. subst b. cbv in Hb. congruence.
Qed.

(** X10. In a file without any quote character no statement contains a
    semicolon. *)
Theorem parseSQL_no_terminator_left content :
  mem quote (runes_of content) = false ->
  Forall (fun stmt => existsb (Byte.eqb x3b) stmt = false)
         (fst (parseSQL content)).
Proof.
  intros M. unfold parseSQL. cbn [fst].
  destruct (loop_semi_free (runes_of content) init M eq_refl semi_free_nil
                           (Forall_nil _)) as [C F].
  eapply Forall_impl; [|apply semi_free_flush; eassumption].
  intros s. apply semi_free_bytes.
Qed.

Lemma parseSQL_no_terminator_left_witness :
  Forall (fun stmt => existsb (Byte.eqb x3b) stmt = false)
         (fst (parseSQL (str "A;; /* ; */ B -- ;
 ; C"))).
Proof.
  apply (parseSQL_no_terminator_left (str "A;; /* ; */ B -- ;
 ; C")).
  vm_compute. reflexivity.
Defined.

(** ** Nothing is invented *)

Lemma subseq_nil_l {A} (l : list A) : subseq [] l.
Proof. induction l; constructor; assumption. Qed.

Lemma subseq_refl {A} (l : list A) : subseq l l.
Proof. induction l; [constructor | apply subseq_take; assumption]. Qed.

Lemma subseq_app {A} (a b c d : list A) :
  subseq a b -> subseq c d -> subseq (a ++ c) (b ++ d).
Proof.
  induction 1 as [|x l1 l2 S IH|x l1 l2 S IH]; intros Hcd; cbn.
  - exact Hcd.
  - apply subseq_skip, IH, Hcd.
  - apply subseq_take, IH, Hcd.
Qed.

Lemma subseq_trans {A} (a b c : list A) :
  subseq a b -> subseq b c -> subseq a c.
Proof.
  intros Hab Hbc. revert a Hab.
  induction Hbc as [|x b c Hbc IH|x b c Hbc IH]; intros a Hab.
  - exact Hab.
  - apply subseq_skip, IH, Hab.
  - inversion Hab; subst.
    + apply subseq_skip, IH. assumption.
    + apply subseq_take, IH. assumption.
Qed.

Lemma subseq_rev {A} (a b : list A) : subseq a b -> subseq (rev a) (rev b).
Proof.
  induction 1; cbn.
  - constructor.
  - rewrite <- (app_nil_r (rev l1)).
    apply subseq_app; [assumption | apply subseq_nil_l].
  - apply subseq_app; [assumption | apply subseq_refl].
Qed.

Lemma subseq_Forall {A} (P : A -> Prop) a b :
  subseq a b -> Forall P b -> Forall P a.
Proof.
  induction 1 as [|x l1 l2 S IH|x l1 l2 S IH]; intros F.
  - constructor.
  - inversion F; subst. auto.
  - inversion F; subst. constructor; auto.
Qed.

Lemma subseq_map {A B} (f : A -> B) a b :
  subseq a b -> subseq (map f a) (map f b).
Proof.
  induction 1; cbn;
    [constructor | apply subseq_skip | apply subseq_take]; assumption.
Qed.

Lemma trim_left_sub rs :
  exists rs', strings.trim_left (map chunk_of rs) = map chunk_of rs'
              /\ subseq rs' rs.
Proof.
  induction rs as [|r rs [rs' [E S]]];
    [exists []; split; [reflexivity | constructor]|].
  cbn [map strings.trim_left].
  destruct (IsSpace (fst (chunk_of r))).
  - exists rs'. split; [exact E | constructor; exact S].
  - exists (r :: rs). split; [reflexivity | apply subseq_refl].
Qed.

Lemma trim_sub rs :
  exists rs', trim (map chunk_of rs) = map chunk_of rs' /\ subseq rs' rs.
Proof.
  unfold trim, strings.trim_right.
  destruct (trim_left_sub rs) as [r1 [E1 S1]]. rewrite E1.
  rewrite <- map_rev.
  destruct (trim_left_sub (rev r1)) as [r2 [E2 S2]]. rewrite E2.
  exists (rev r2). rewrite map_rev. split; [reflexivity|].
  apply subseq_trans with r1; [|exact S1].
  rewrite <- (rev_involutive r1). apply subseq_rev, S2.
Qed.

Lemma drawn_TrimSpace X s : drawn_from X s -> drawn_from X (strings.TrimSpace s).
Proof.
  intros [rs [E S]]. subst s. destruct (trim_sub rs) as [rs' [T S']].
  exists rs'. split; [|apply subseq_trans with rs; assumption].
  unfold strings.TrimSpace. rewrite decode_string_of_runes.
  fold (trim (map chunk_of rs)). rewrite T. apply bytes_of_canon.
Qed.

Lemma drawn_more X Y s : drawn_from X s -> drawn_from (X ++ Y) s.
Proof.
  intros [rs [E S]]. exists rs. split; [exact E|].
  rewrite <- (app_nil_r rs). apply subseq_app; [exact S | apply subseq_nil_l].
Qed.

Lemma drawn_write X b c :
  drawn_from X b -> drawn_from (X ++ [c]) (strings.WriteRune b c).
Proof.
  intros [rs [E S]]. exists (rs ++ [c]). subst b. split.
  - rewrite string_of_runes_app. unfold strings.WriteRune. cbn.
    rewrite app_nil_r. reflexivity.
  - apply subseq_app; [exact S | apply subseq_refl].
Qed.

Lemma drawn_nil X : drawn_from X [].
Proof. exists []. split; [reflexivity | apply subseq_nil_l]. Qed.

Lemma drawn_flush X st :
  drawn_from X (currentStmt st) -> Forall (drawn_from X) (statements st) ->
  Forall (drawn_from X) (flush st).
Proof.
  intros C S. unfold flush. pose proof (drawn_TrimSpace _ _ C) as T.
  destruct (strings.TrimSpace (currentStmt st)); [exact S|].
  apply Forall_app. split; [exact S | constructor; [exact T | constructor]].
Qed.

Lemma peek_true rest x :
  peek rest x = true -> rest = x :: skip rest.
Proof.
  destruct rest as [|c1 r]; [discriminate|]. cbn.
  intros E. apply Z.eqb_eq in E. subst. reflexivity.
Qed.

Lemma loop_drawn rs : forall st X,
  drawn_from X (currentStmt st) -> Forall (drawn_from X) (statements st) ->
  drawn_from (X ++ rs) (currentStmt (loop rs st))
  /\ Forall (drawn_from (X ++ rs)) (statements (loop rs st)).
Proof.
  induction rs as [|c rest IHr IHs] using skip_ind; intros st X C F.
  - rewrite app_nil_r. split; assumption.
  - assert (F1 : Forall (drawn_from (X ++ [c])) (statements st))
      by (eapply Forall_impl; [|exact F]; intros s; apply drawn_more).
    assert (C1 : drawn_from (X ++ [c]) (currentStmt st))
      by (apply drawn_more, C).
    assert (R : forall st',
               drawn_from (X ++ [c]) (currentStmt st') ->
               Forall (drawn_from (X ++ [c])) (statements st') ->
               drawn_from (X ++ c :: rest) (currentStmt (loop rest st'))
               /\ Forall (drawn_from (X ++ c :: rest))
                         (statements (loop rest st'))).
    { intros st' C' F'.
      change (X ++ c :: rest) with (X ++ [c] ++ rest). rewrite app_assoc.
      apply IHr; assumption. }
    assert (K : forall st' x,
               peek rest x = true ->
               drawn_from ((X ++ [c]) ++ [x]) (currentStmt st') ->
               Forall (drawn_from ((X ++ [c]) ++ [x])) (statements st') ->
               drawn_from (X ++ c :: rest) (currentStmt (loop (skip rest) st'))
               /\ Forall (drawn_from (X ++ c :: rest))
                         (statements (loop (skip rest) st'))).
    { intros st' x P C' F'. rewrite (peek_true rest x P) at 1 3.
      change (X ++ c :: x :: skip rest) with (X ++ [c] ++ [x] ++ skip rest).
      rewrite !app_assoc. apply IHs; assumption. }
    assert (F2 : forall x, Forall (drawn_from ((X ++ [c]) ++ [x])) (statements st))
      by (intros x; eapply Forall_impl; [|exact F1]; intros s; apply drawn_more).
    cbn [loop].
    repeat match goal with
           | |- context [if ?b then _ else _] => destruct b eqn:?
           end;
      repeat match goal with
             | H : (_ && _)%bool = true |- _ =>
               apply andb_true_iff in H; destruct H
             | H : (c =? _) = true |- _ => apply Z.eqb_eq in H
             end;
      first [ apply R | eapply K; [eassumption | |] ];
      cbn [write terminate set_inString set_inBlockComment set_inLineComment
           currentStmt statements];
      try assumption; try apply F2; try (apply drawn_more; assumption).
    all: try (subst c; apply drawn_write; assumption).
    all: try (apply drawn_write; assumption).
    + replace (hd 0 rest) with quote
        by (rewrite (peek_true rest quote) by assumption; reflexivity).
      apply drawn_write. apply drawn_write. exact C.
    + apply drawn_nil.
    + apply drawn_flush; assumption.
Qed.

Lemma decode_rune_valid s :
  utf8.ValidRune (fst (utf8.DecodeRuneInString s)) = true.
Proof.
  destruct s as [|b0 s]; [reflexivity|].
  pose proof (b2z_range b0).
  destruct (utf8.DecodeRuneInString (b0 :: s)) as [r w] eqn:D.
  unfold utf8.DecodeRuneInString, utf8.at_ in D. cbn [nth] in D.
  unfold utf8.RuneSelf, utf8.first, utf8.locb, utf8.hicb in D.
  cbn [fst]. unfold utf8.ValidRune, utf8.MaxRune.
  destruct s as [|b1 [|b2 [|b3 s]]];
    try pose proof (b2z_range b1); try pose proof (b2z_range b2);
    try pose proof (b2z_range b3);
    guards_in D; inversion D; subst r w; clear D; try reflexivity.
  all: destruct (Z_le_gt_dec (b2z b0) 236); apply orb_true_iff;
    first
      [ left; apply andb_true_iff; split;
        [apply Z.leb_le | apply Z.ltb_lt]; zlia
      | right; apply andb_true_iff; split;
        [apply Z.ltb_lt | apply Z.leb_le]; zlia ].
Qed.

Lemma runes_of_valid s :
  Forall (fun r => utf8.ValidRune r = true) (runes_of s).
Proof.
  unfold runes_of. remember (length s) as n eqn:Hn. revert s Hn.
  induction n as [n IH] using lt_wf_ind. intros s Hn.
  destruct s as [|b s]; [constructor|].
  rewrite decode_step by congruence.
  pose proof (decode_width (b :: s) ltac:(congruence)) as W.
  cbn [map fst]. constructor; [apply decode_rune_valid|].
  apply (IH (length (skipn (snd (utf8.DecodeRuneInString (b :: s))) (b :: s))));
    [|reflexivity].
  rewrite length_skipn. subst n. lia.
Qed.

Lemma runes_of_encoded rs :
  Forall (fun r => utf8.ValidRune r = true) rs ->
  runes_of (string_of_runes rs) = rs.
Proof.
  intros F. unfold runes_of. rewrite decode_string_of_runes, map_map.
  induction F as [|r rs Hr F IH]; [reflexivity|].
  cbn [map]. rewrite IH. unfold chunk_of, fix_rune. cbn [fst].
  rewrite Hr. reflexivity.
Qed.

(** X11. Every statement is made of characters of the file, in the file's order:
    [parseSQL] leaves text out (comments, white space at the ends) but never
    adds or reorders any. *)
Theorem parseSQL_draws_from_input content :
  Forall (fun stmt => subseq (runes_of stmt) (runes_of content))
         (fst (parseSQL content)).
Proof.
  unfold parseSQL. cbn [fst].
  destruct (loop_drawn (runes_of content) init [] (drawn_nil _)
                       (Forall_nil _)) as [C F].
  cbn [app] in C, F.
  eapply Forall_impl; [|apply drawn_flush; eassumption].
  intros s [rs [E S]]. subst s.
  rewrite runes_of_encoded; [exact S|].
  eapply subseq_Forall; [exact S | apply runes_of_valid].
Qed.

(** ** Nothing but the statement's bytes, spaces and dots *)

Lemma Forall_flat_map {A B} (P : B -> Prop) (f : A -> list B) l :
  Forall P (flat_map f l) <-> Forall (fun a => Forall P (f a)) l.
Proof.
  induction l as [|a l IH]; cbn.
  - split; constructor.
  - rewrite Forall_app, IH. split.
    + intros [Ha Hl]. constructor; assumption.
    + intros F. inversion F; subst. split; assumption.
Qed.

Lemma spec_runs_Forall (P : chunk -> Prop) cs : forall b,
  P space_chunk -> Forall P cs -> Forall P (spec_runs cs b).
Proof.
  induction cs as [|c t IH]; intros b S F; [constructor|].
  inversion F; subst. cbn [spec_runs].
  destruct (IsSpace (fst c)); [destruct b|]; auto.
Qed.

Lemma spec_collapse_bytes s :
  Forall (fun b => In b s \/ b = x20) (spec_collapse s).
Proof.
  unfold spec_collapse, strings.bytes_of.
  apply Forall_flat_map, trim_Forall, spec_runs_Forall.
  - constructor; [right; reflexivity | constructor].
  - apply Forall_flat_map. fold (strings.bytes_of (decode s)).
    rewrite bytes_of_decode. apply Forall_forall. intros b I. left. exact I.
Qed.

(** X14. Every byte [truncateStatement] returns is a byte of the statement, a
    space or a dot. *)
Theorem truncateStatement_bytes_from_input s maxLen r :
  truncateStatement s maxLen = Some r ->
  Forall (fun b => In b s \/ b = x20 \/ b = x2e) r.
Proof.
  unfold truncateStatement. rewrite Join_Fields.
  assert (C : Forall (fun b => In b s \/ b = x20 \/ b = x2e) (spec_collapse s)).
  { eapply Forall_impl; [|apply spec_collapse_bytes]. cbn. tauto. }
  destruct (len (spec_collapse s) <=? maxLen).
  - intros E. inversion E. subst r. exact C.
  - unfold slice_to.
    destruct ((0 <=? int_sub maxLen 3)
              && (int_sub maxLen 3 <=? len (spec_collapse s)))%bool;
      [|discriminate].
    intros E. inversion E. subst r. apply Forall_app. split.
    + rewrite <- (firstn_skipn (Z.to_nat (int_sub maxLen 3))
                               (spec_collapse s)) in C.
      apply Forall_app in C. apply C.
    + repeat constructor; right; right; reflexivity.
Qed.

Lemma truncateStatement_bytes_from_input_witness :
  Forall (fun b => In b (str "SELECT  *
   FROM  users") \/ b = x20 \/ b = x2e) (str "SELECT * ...").
Proof.
  apply (truncateStatement_bytes_from_input _ 12).
  vm_compute. reflexivity.
Defined.

(** ** formats *)

Module formats_facts.
Import formats.

Lemma bytes_eqb_eq a b : bytes_eqb a b = true <-> a = b.
Proof.
  unfold bytes_eqb. destruct (list_eq_dec Byte.byte_eq_dec a b);
    split; congruence.
Qed.

Lemma bytes_eqb_refl a : bytes_eqb a a = true.
Proof. apply bytes_eqb_eq. reflexivity. Qed.

Lemma bytes_eqb_neq a b : a <> b -> bytes_eqb a b = false.
Proof.
  intros N. destruct (bytes_eqb a b) eqn:E; [|reflexivity].
  apply bytes_eqb_eq in E. contradiction.
Qed.

Lemma get_set_same {V} (m : list (gostring * V)) k v :
  map_get (map_set m k v) k = Some v.
Proof.
  induction m as [|[k' v'] t IH]; cbn.
  - rewrite bytes_eqb_refl. reflexivity.
  - destruct (bytes_eqb k' k) eqn:E; cbn.
    + rewrite bytes_eqb_refl. reflexivity.
    + rewrite E. exact IH.
Qed.

Lemma get_set_other {V} (m : list (gostring * V)) k v k' :
  k <> k' -> map_get (map_set m k v) k' = map_get m k'.
Proof.
  intros N. induction m as [|[k0 v0] t IH]; cbn.
  - rewrite bytes_eqb_neq by exact N. reflexivity.
  - destruct (bytes_eqb k0 k) eqn:E; cbn.
    + apply bytes_eqb_eq in E. subst k0.
      rewrite !bytes_eqb_neq by exact N. reflexivity.
    + destruct (bytes_eqb k0 k'); [reflexivity | exact IH].
Qed.

Lemma get_absent {V} (m : list (gostring * V)) k :
  ~ In k (map fst m) -> map_get m k = None.
Proof.
  induction m as [|[k0 v0] t IH]; intros N; [reflexivity|]. cbn in *.
  rewrite bytes_eqb_neq by (intros ->; apply N; left; reflexivity).
  apply IH. intros I. apply N. right. exact I.
Qed.

Lemma values_get_set_same (q : Values) k vs :
  values_get (map_set q k vs) k = vs.
Proof. unfold values_get. rewrite get_set_same. reflexivity. Qed.

Lemma values_get_set_other (q : Values) k vs k' :
  k <> k' -> values_get (map_set q k vs) k' = values_get q k'.
Proof. intros N. unfold values_get. rewrite get_set_other by exact N. reflexivity. Qed.

Lemma add_all_same values : forall (q : Values) key,
  values_get (fold_left (fun q v => Add q key v) values q) key
  = values_get q key ++ values.
Proof.
  induction values as [|v vs IH]; intros q key; cbn [fold_left].
  - rewrite app_nil_r. reflexivity.
  - rewrite IH. unfold Add. rewrite values_get_set_same, <- app_assoc.
    reflexivity.
Qed.

Lemma add_all_other values : forall (q : Values) key k,
  key <> k ->
  values_get (fold_left (fun q v => Add q key v) values q) k
  = values_get q k.
Proof.
  induction values as [|v vs IH]; intros q key k N; cbn [fold_left];
    [reflexivity|].
  rewrite IH by exact N. unfold Add. apply values_get_set_other, N.
Qed.

Lemma copy_get query : forall acc k,
  NoDup (map fst query) ->
  values_get (copy_query query acc) k
  = values_get acc k ++ (if kept k then values_get query k else []).
Proof.
  induction query as [|[key values] rest IH]; intros acc k ND.
  - cbn. destruct (kept k); rewrite app_nil_r; reflexivity.
  - cbn [map fst] in ND. inversion ND as [|? ? Hnin ND']; subst.
    unfold copy_query. cbn [fold_left].
    fold (copy_query rest (if kept key
                           then fold_left (fun q v => Add q key v) values acc
                           else acc)).
    rewrite IH by exact ND'.
    unfold values_get at 4. cbn [map_get].
    destruct (bytes_eqb key k) eqn:E.
    + apply bytes_eqb_eq in E. subst k.
      assert (R : values_get rest key = []).
      { unfold values_get. rewrite get_absent by exact Hnin. reflexivity. }
      rewrite R. destruct (kept key).
      * rewrite add_all_same, app_nil_r. reflexivity.
      * reflexivity.
    + assert (N : key <> k) by (intros ->; rewrite bytes_eqb_refl in E; discriminate).
      fold (values_get rest k).
      destruct (kept key); [rewrite add_all_other by exact N|]; reflexivity.
Qed.

(** X16. The link to a page keeps every parameter of the request but [page] and
    [links]; it carries the page it points to and [links=true]. *)
Theorem link_query_keeps_parameters query targetPage :
  NoDup (map fst query) ->
  values_get (link_query query targetPage) (str "page") = [itoa targetPage]
  /\ values_get (link_query query targetPage) (str "links") = [str "true"]
  /\ forall key,
       key <> str "page" -> key <> str "links" ->
       values_get (link_query query targetPage) key = values_get query key.
Proof.
  intros ND. unfold link_query, Set_. repeat split.
  - rewrite values_get_set_other by discriminate.
    apply values_get_set_same.
  - apply values_get_set_same.
  - intros key N1 N2.
    rewrite !values_get_set_other by congruence.
    rewrite copy_get by exact ND.
    unfold kept. rewrite !bytes_eqb_neq by (exact N1 || exact N2).
    cbn [negb andb values_get map_get app].
    destruct (map_get query key); reflexivity.
Qed.

Lemma link_query_keeps_parameters_witness :
  values_get (link_query [(str "limit", [str "10"]); (str "page", [str "3"])] 4)
             (str "page") = [str "4"]
  /\ values_get (link_query [(str "limit", [str "10"]); (str "page", [str "3"])] 4)
                (str "limit") = [str "10"].
Proof.
  destruct (link_query_keeps_parameters
              [(str "limit", [str "10"]); (str "page", [str "3"])] 4)
    as [H1 [_ H3]].
  - repeat constructor; cbn; intuition discriminate.
  - split; [exact H1|]. rewrite H3 by discriminate. reflexivity.
Defined.

Lemma int_add_exact a b :
  int_min <= a + b <= int_max -> int_add a b = a + b.
Proof.
  unfold int_add, wrap_int, int_min, int_max. intros H.
  rewrite Z.mod_small; lia.
Qed.

Ltac links_get :=
  repeat first
    [ rewrite get_set_same
    | rewrite get_set_other by discriminate ].

(** X15. On a page that exists, every link of [generateHATEOASLinks] leads to a
    page that exists; the first page has no [prev] link and the last no
    [next] link, every other page has both, to its neighbours. *)
Theorem links_stay_in_range basePath query page limit totalPages :
  1 <= page <= totalPages ->
  totalPages <= int_max ->
  let links := generateHATEOASLinks basePath query page limit totalPages in
  (forall key url,
      map_get links key = Some url ->
      exists p, 1 <= p <= totalPages /\ url = buildURL basePath query p)
  /\ map_get links (str "prev")
     = (if page =? 1 then None
        else Some (buildURL basePath query (page - 1)))
  /\ map_get links (str "next")
     = (if page =? totalPages then None
        else Some (buildURL basePath query (page + 1))).
Proof.
  intros R M links. subst links. unfold generateHATEOASLinks.
  assert (T : (0 <? totalPages) = true) by (apply Z.ltb_lt; lia). rewrite T.
  assert (S1 : 1 < page -> int_sub page 1 = page - 1)
    by (intros; apply int_sub_exact; unfold int_min, int_max in *; lia).
  assert (A1 : page < totalPages -> int_add page 1 = page + 1)
    by (intros; apply int_add_exact; unfold int_min, int_max in *; lia).
  destruct (1 <? page) eqn:P1; [apply Z.ltb_lt in P1 | apply Z.ltb_ge in P1];
    (destruct (page <? totalPages) eqn:P2;
     [apply Z.ltb_lt in P2 | apply Z.ltb_ge in P2]);
    rewrite ?S1, ?A1 by assumption;
    (destruct (page =? 1) eqn:E1;
     [apply Z.eqb_eq in E1 | apply Z.eqb_neq in E1]; try lia);
    (destruct (page =? totalPages) eqn:E2;
     [apply Z.eqb_eq in E2 | apply Z.eqb_neq in E2]; try lia).
  all: split; [|split; cbn [map_set map_get bytes_eqb]; reflexivity].
  all: intros key url G; cbn in G;
    repeat match type of G with
           | (if ?c then _ else _) = Some _ =>
             destruct c; [inversion G; subst url; eexists; split; [|reflexivity]; lia|]
           end; discriminate.
Qed.

Lemma links_stay_in_range_witness :
  map_get (generateHATEOASLinks (str "/api/t") [] 5 10 5) (str "next") = None
  /\ map_get (generateHATEOASLinks (str "/api/t") [] 5 10 5) (str "prev")
     = Some (str "/api/t?links=true&page=4").
Proof.
  destruct (links_stay_in_range (str "/api/t") [] 5 10 5)
    as [_ [H1 H2]]; [lia | unfold int_max; lia |].
  split; [exact H2 | rewrite H1; vm_compute; reflexivity].
Defined.

Section WriteJSONFacts.
Context `{Web}.

Lemma scan_rows_ok columns rowvals : forall data n,
  scan_rows columns (map inl rowvals) data n
  = inl (data ++ map (row_map columns) rowvals,
         n + Z.of_nat (length rowvals)).
Proof.
  induction rowvals as [|v vs IH]; intros data n; cbn [map scan_rows length].
  - rewrite app_nil_r, Z.add_0_r. reflexivity.
  - rewrite IH, <- app_assoc. cbn [app]. do 2 f_equal. lia.
Qed.

Lemma scan_rows_inv columns rest : forall data n,
  (exists rowvals, rest = map inl rowvals)
  \/ (exists err,
        In (inr err) rest
        /\ scan_rows columns rest data n
           = inr (Errorf (str "failed to scan row: ") err)).
Proof.
  induction rest as [|[values|err] rest IH]; intros data n.
  - left. exists []. reflexivity.
  - cbn [scan_rows].
    destruct (IH (data ++ [row_map columns values]) (n + 1))
      as [[rowvals E]|[err [I E]]].
    + left. exists (values :: rowvals). subst rest. reflexivity.
    + right. exists err. split; [right; exact I | exact E].
  - right. exists err. split; [left; reflexivity | reflexivity].
Qed.

(** X17. [WriteJSON] returns an error of its own exactly when the rows could not
    be read: [Columns] failed, a [Scan] failed or [rows.Err] is set.  It has
    then written nothing to the response, neither header nor status nor
    body. *)
Theorem WriteJSON_own_error_writes_nothing w rows page limit totalRows
  paginationRequested safetyLimit linksConfig :
  let result := WriteJSON w rows page limit totalRows paginationRequested
                          safetyLimit linksConfig in
  ((exists e, snd result = Some (Wrapped e))
   <-> (exists err, Columns rows = inr err)
       \/ (exists err, In (inr err) (scans rows))
       \/ (exists err, Err rows = Some err))
  /\ ((exists e, snd result = Some (Wrapped e)) -> fst result = w).
Proof.
  cbn zeta. unfold WriteJSON.
  destruct (Columns rows) as [columns|cerr] eqn:C.
  2:{ split; [|reflexivity]. split; [eauto | intros _; eexists; reflexivity]. }
  destruct (scan_rows_inv columns (scans rows) [] 0)
    as [[rowvals E]|[serr [I E]]].
  - rewrite E, scan_rows_ok.
    destruct (Err rows) as [rerr|] eqn:R.
    + split; [|reflexivity].
      split; [eauto | intros _; eexists; reflexivity].
    + destruct (Encoder_Encode _ _) as [w' [e|]]; cbn [fst snd option_map].
      * split; [split|]; [intros [x X]; discriminate | | intros [x X]; discriminate].
        intros [[x X]|[[x X]|[x X]]]; try discriminate.
        apply in_map_iff in X. destruct X as [? [X _]]. discriminate.
      * split; [split|]; [intros [x X]; discriminate | | intros [x X]; discriminate].
        intros [[x X]|[[x X]|[x X]]]; try discriminate.
        apply in_map_iff in X. destruct X as [? [X _]]. discriminate.
  - rewrite E. split; [|reflexivity].
    split; [eauto | intros _; eexists; reflexivity].
Qed.

(** X18. When the rows are read without error, the response carries one row map
    per row, in the order of the rows, and is encoded after the content
    type and the status 200 have been set; [WriteJSON] returns what the
    encoder returns. *)
Theorem WriteJSON_writes_every_row w rows columns rowvals page limit
  totalRows paginationRequested safetyLimit linksConfig :
  Columns rows = inl columns ->
  scans rows = map inl rowvals ->
  Err rows = None ->
  let response :=
    build_response (map (row_map columns) rowvals)
                   (Z.of_nat (length rowvals)) page limit totalRows
                   paginationRequested safetyLimit linksConfig in
  let sent :=
    Encoder_Encode
      (WriteHeader (Header_Set w (str "Content-Type")
                               (str "application/json")) 200)
      response in
  WriteJSON w rows page limit totalRows paginationRequested safetyLimit
            linksConfig
  = (fst sent, option_map Direct (snd sent))
  /\ map_get response (str "data")
     = Some (JRows (map (row_map columns) rowvals)).
Proof.
  intros C S E. cbn zeta. split.
  - unfold WriteJSON. rewrite C, S, scan_rows_ok, E. cbn [app Z.add].
    destruct (Encoder_Encode _ _). reflexivity.
  - unfold build_response.
    repeat match goal with
           | |- context [if ?c then _ else _] => destruct c
           | |- context [match ?c with Some _ => _ | None => _ end] =>
             destruct c
           end;
      repeat rewrite get_set_other by discriminate; reflexivity.
Qed.


Lemma wrap_int_exact z : int_min <= z <= int_max -> wrap_int z = z.
Proof.
  unfold wrap_int, int_min, int_max. intros R. rewrite Z.mod_small; lia.
Qed.

Lemma wrap_int_sub_wrap x y : wrap_int (wrap_int x - y) = wrap_int (x - y).
Proof.
  unfold wrap_int. f_equal.
  replace ((x + 2 ^ 63) mod 2 ^ 64 - 2 ^ 63 - y + 2 ^ 63)
    with ((x + 2 ^ 63) mod 2 ^ 64 - y) by lia.
  rewrite Zminus_mod_idemp_l. f_equal. lia.
Qed.

Lemma total_pages_ceiling totalRows limit :
  0 <= totalRows -> 0 < limit ->
  totalRows + limit - 1 <= int_max ->
  (total_pages totalRows limit - 1) * limit < totalRows
  /\ totalRows <= total_pages totalRows limit * limit.
Proof.
  intros R L M. unfold total_pages.
  destruct (0 <? totalRows) eqn:P;
    [apply Z.ltb_lt in P | apply Z.ltb_ge in P; lia].
  unfold int_sub, int_add. rewrite wrap_int_sub_wrap.
  rewrite wrap_int_exact by (unfold int_min, int_max in *; lia).
  rewrite Z.quot_div_nonneg by lia.
  pose proof (Z.div_mod (totalRows + limit - 1) limit ltac:(lia)) as D.
  pose proof (Z.mod_pos_bound (totalRows + limit - 1) limit L) as B.
  nia.
Qed.

(** X19. With pagination asked for, the response tells the page, the limit, the
    number of rows and the number of pages, which is the number of rows
    divided by the limit and rounded up. *)
Theorem pagination_counts_pages data rowCount page limit totalRows
  safetyLimit linksConfig :
  0 < limit ->
  0 <= totalRows ->
  totalRows + limit - 1 <= int_max ->
  exists totalPages,
    map_get (build_response data rowCount page limit totalRows true
                            safetyLimit linksConfig) (str "pagination")
    = Some (JObject [(str "page", JInt page);
                     (str "limit", JInt limit);
                     (str "total_rows", JInt totalRows);
                     (str "total_pages", JInt totalPages)])
    /\ (totalPages - 1) * limit < totalRows <= totalPages * limit.
Proof.
  intros L R M. exists (total_pages totalRows limit).
  split; [|apply total_pages_ceiling; assumption].
  unfold build_response. cbn [andb].
  apply Z.ltb_lt in L. rewrite L.
  destruct linksConfig as [cfg|]; [destruct (Enabled cfg)|];
    repeat rewrite get_set_other by discriminate;
    apply get_set_same.
Qed.

(** X20. The response never carries both the pagination block and the
    truncation notice.  The pagination block is there exactly when
    pagination was asked for with a positive limit; the notice, with its
    message and the number of rows available, exactly when pagination was
    not asked for and the safety limit was reached with rows left over. *)
Theorem response_pagination_or_truncation data rowCount page limit
  totalRows paginationRequested safetyLimit linksConfig :
  let response := build_response data rowCount page limit totalRows
                                 paginationRequested safetyLimit linksConfig in
  (map_get response (str "pagination") <> None
   <-> paginationRequested = true /\ 0 < limit)
  /\ (map_get response (str "truncated") <> None
      <-> paginationRequested = false
          /\ 0 < safetyLimit <= rowCount /\ rowCount < totalRows)
  /\ (map_get response (str "truncated") <> None ->
      map_get response (str "message") <> None
      /\ map_get response (str "total_available")
         = Some (JScalar (JInt totalRows)))
  /\ ~ (map_get response (str "pagination") <> None
        /\ map_get response (str "truncated") <> None).
Proof.
  cbn zeta. unfold build_response.
  destruct paginationRequested; cbn [andb negb];
    [destruct (0 <? limit) eqn:L;
     [apply Z.ltb_lt in L | apply Z.ltb_ge in L]|];
    [destruct linksConfig as [cfg|]; [destruct (Enabled cfg)|] | |
     destruct (0 <? safetyLimit) eqn:S1;
     [apply Z.ltb_lt in S1 | apply Z.ltb_ge in S1];
     (destruct (safetyLimit <=? rowCount) eqn:S2;
      [apply Z.leb_le in S2 | apply Z.leb_gt in S2]);
     (destruct (rowCount <? totalRows) eqn:S3;
      [apply Z.ltb_lt in S3 | apply Z.ltb_ge in S3])];
    cbn [andb];
    repeat first [ rewrite get_set_same
                 | rewrite get_set_other by discriminate ];
    cbn [map_get bytes_eqb];
    repeat split; intros; try discriminate; try congruence; try lia;
    try (intuition (congruence || lia)).
Qed.

Lemma row_map_fold_other columns values : forall m i key,
  ~ In key columns ->
  map_get (fst (fold_left
                  (fun (acc : list (gostring * scalar any) * nat) col =>
                     let '(rowMap, i) := acc in
                     (map_set rowMap col (convert (nth i values DBNil)), S i))
                  columns (m, i))) key
  = map_get m key.
Proof.
  induction columns as [|c cs IH]; intros m i key N; [reflexivity|].
  cbn [fold_left]. rewrite IH by (intros I; apply N; right; exact I).
  apply get_set_other. intros ->. apply N. left. reflexivity.
Qed.

Lemma row_map_fold_nth columns values : forall m i j,
  NoDup columns -> (j < length columns)%nat ->
  map_get (fst (fold_left
                  (fun (acc : list (gostring * scalar any) * nat) col =>
                     let '(rowMap, i) := acc in
                     (map_set rowMap col (convert (nth i values DBNil)), S i))
                  columns (m, i))) (nth j columns [])
  = Some (convert (nth (i + j) values DBNil)).
Proof.
  induction columns as [|c cs IH]; intros m i j ND L; [cbn in L; lia|].
  inversion ND as [|? ? Hnin ND']; subst. cbn [fold_left].
  destruct j as [|j].
  - cbn [nth]. rewrite row_map_fold_other by exact Hnin.
    rewrite get_set_same, Nat.add_0_r. reflexivity.
  - cbn [nth]. rewrite IH by (try assumption; cbn in L; lia).
    replace (S i + j)%nat with (i + S j)%nat by lia. reflexivity.
Qed.

(** X21. In a row map every column is bound to the value scanned at its
    position: [nil] stays [nil], a byte slice becomes a string, anything
    else is passed on as it is.  The column names are distinct. *)
Theorem row_map_binds_columns columns values j :
  NoDup columns -> (j < length columns)%nat ->
  map_get (row_map columns values) (nth j columns [])
  = Some (match nth j values DBNil with
          | DBNil => JNil
          | DBBytes b => JString b
          | DBOther v => JOther v
          end).
Proof.
  intros ND L. unfold row_map. rewrite row_map_fold_nth by assumption.
  reflexivity.
Qed.

End WriteJSONFacts.

Lemma WriteJSON_writes_every_row_witness :
  @WriteJSON recorder ([], None, []) people 2 10 25 true 1000 None
  = (([(str "Content-Type", str "application/json")], Some 200,
      [@build_response recorder
         [[(str "id", JOther 1); (str "name", JString (str "ann"))];
          [(str "id", JNil); (str "name", JString (str "bob"))]]
         2 2 10 25 true 1000 None]),
     None).
Proof.
  destruct (@WriteJSON_writes_every_row recorder ([], None, []) people
              [str "id"; str "name"]
              [[DBOther 1; DBBytes (str "ann")]; [DBNil; DBBytes (str "bob")]]
              2 10 25 true 1000 None eq_refl eq_refl eq_refl) as [E _].
  rewrite E. reflexivity.
Defined.

Lemma pagination_counts_pages_witness :
  exists totalPages,
    map_get (@build_response recorder [] 0 1 10 25 true 0 None)
            (str "pagination")
    = Some (JObject [(str "page", JInt 1); (str "limit", JInt 10);
                     (str "total_rows", JInt 25);
                     (str "total_pages", JInt totalPages)])
    /\ (totalPages - 1) * 10 < 25 <= totalPages * 10.
Proof.
  apply (@pagination_counts_pages recorder [] 0 1 10 25 0 None);
    unfold int_max; lia.
Defined.

Lemma row_map_binds_columns_witness :
  map_get (@row_map recorder [str "id"; str "name"]
                    [DBOther 1; DBBytes (str "ann")]) (str "name")
  = Some (JString (str "ann")).
Proof.
  apply (@row_map_binds_columns recorder [str "id"; str "name"]
           [DBOther 1; DBBytes (str "ann")] 1%nat).
  - repeat constructor; cbn; intuition discriminate.
  - cbn. lia.
Defined.

End formats_facts.
